(** * Crank-Nicolson time stepping for the 1D heat equation

    A shallow embedding of the computational cell of [HeatEquation1D.ipynb]
    (the grid quantities, the boundary columns, the two coefficient matrices
    and the time-stepping loop) together with the properties of it that the
    specification states.

    Numbers.  The notebook computes in binary64.  The cell is modelled twice.

    - The whole cell over exact rationals ([Qc], the canonical rationals,
      whose equality is Leibniz equality and whose operations evaluate).
      What is proved of it about shapes, positions, the order of the
      statements, the exceptions and which value is stored where does not
      depend on the arithmetic.  What is proved of it about the values
      themselves is a statement about the scheme in exact arithmetic, and
      says so; it is stated as an inequality or a sign, never as an identity
      between computed numbers.

    - The scalar part of the cell (source lines 126-143: [dx], [dt], [lbd]
      and the entries of [A] and [B]) once more over the kernel's binary64
      numbers, in the module [B64].  It runs, and it is used where a
      statement of the specification fails because of rounding.  [binary64]
      is the set of rationals a binary64 number can stand for.

    The linear solver.  [np.linalg.solve] is not code of the notebook.  It is
    taken as a parameter [solve] of the time loop.  Three predicates describe
    a solver: [solver_shape] (the result has the length of the right-hand
    side) and [fails_by_matrix] (whether it fails depends on the matrix
    alone), which [np.linalg.solve] meets, and [solver_contract], the
    contract of section 4.5 of the specification (the result solves the
    system, failure only on a singular matrix), which an exact solver meets
    and a binary64 solver meets up to rounding only.  [Gauss.gauss_solve] is
    an exact solver that meets all three; it is used to run the model on
    concrete inputs. *)

From Stdlib Require Import QArith Qcanon Lqa ZArith List Lia Bool.
From Stdlib Require Qcabs Floats String.
Import ListNotations.

Set Implicit Arguments.

Open Scope Qc_scope.

(** * The model *)

(** ** Exact numbers *)

(** A Python [int] read as a number. *)
Definition inZ (z : Z) : Qc := Q2Qc (inject_Z z).

Definition two : Qc := inZ 2.

(** ** Python exceptions and results *)

Inductive PyError : Type :=
| ValueError
| ZeroDivisionError
| IndexError
| LinAlgError.

Definition result (A : Type) : Type := (PyError + A)%type.

Definition bind {A B : Type} (r : result A) (k : A -> result B) : result B :=
  match r with
  | inl e => inl e
  | inr a => k a
  end.

Notation "x <- r ;; k" := (bind r (fun x => k))
  (at level 61, r at next level, right associativity).

(** The exception objects as Python shows them: the name of the class, and
    for [LinAlgError] the arguments, which numpy fixes to the one message
    of [raise LinAlgError("Singular matrix")]. *)
Module Py.
Import String.

Definition exception_class (e : PyError) : string :=
  match e with
  | ValueError => "ValueError"
  | ZeroDivisionError => "ZeroDivisionError"
  | IndexError => "IndexError"
  | LinAlgError => "LinAlgError"
  end.

Definition linalg_error_args : list string := ["Singular matrix"%string].

Definition is_digit (c : Ascii.ascii) : bool :=
  let k := Ascii.nat_of_ascii c in ((48 <=? k) && (k <=? 57))%nat.

(** Some argument holds a decimal digit. *)
Definition mentions_number (args : list string) : bool :=
  existsb (fun a => existsb is_digit (list_ascii_of_string a)) args.

(** The class the specification names for a failed solve (section 7). *)
Definition linear_solve_error_class : string := "LinearSolveError".

End Py.

(** Python's true division [a / b]. *)
Definition py_div (a b : Qc) : result Qc :=
  if Qc_eq_bool b 0 then inl ZeroDivisionError else inr (a / b).

(** ** Vectors, matrices and the numpy operations the cell uses *)

Definition vector : Type := list Qc.
Definition matrix : Type := list vector.

Definition entry (M : matrix) (i j : nat) : Qc := nth j (nth i M []) 0.

(** The [n] by [n] array whose entry [(i, j)] is [f i j]. *)
Definition mat_of (n : nat) (f : nat -> nat -> Qc) : matrix :=
  map (fun i => map (fun j => f i j) (seq 0 n)) (seq 0 n).

(** [[x] * count]: a negative count gives the empty list. *)
Definition py_repeat (x : Qc) (count : Z) : vector := repeat x (Z.to_nat count).

(** [np.diag(v, k)] for a one-dimensional [v]: the square array of size
    [len(v) + |k|] with [v] on the [k]-th diagonal and zero elsewhere. *)
Definition np_diag (v : vector) (k : Z) : matrix :=
  mat_of (length v + Z.abs_nat k)
    (fun i j =>
       if (Z.of_nat j =? Z.of_nat i + k)%Z
       then nth (if (0 <=? k)%Z then i else j) v 0
       else 0).

Definition shape (M : matrix) : nat * nat := (length M, length (hd [] M)).

Definition shape_eqb (s t : nat * nat) : bool :=
  (fst s =? fst t)%nat && (snd s =? snd t)%nat.

Definition vec_add (x y : vector) : vector :=
  map (fun p => fst p + snd p) (combine x y).

Definition mat_zip_add (M N : matrix) : matrix :=
  map (fun p => vec_add (fst p) (snd p)) (combine M N).

(** [M + N] on two-dimensional arrays, with numpy's broadcasting for the
    shapes square arrays can have: equal shapes add entry by entry, a 1 by 1
    array is added to every entry of the other, anything else is a
    [ValueError]. *)
Definition np_add (M N : matrix) : result matrix :=
  if shape_eqb (shape M) (shape N) then inr (mat_zip_add M N)
  else if shape_eqb (shape N) (1, 1)%nat
  then inr (map (map (fun x => x + entry N 0 0)) M)
  else if shape_eqb (shape M) (1, 1)%nat
  then inr (map (map (fun y => entry M 0 0 + y)) N)
  else inl ValueError.

Fixpoint dot (r x : vector) : Qc :=
  match r, x with
  | a :: r', b :: x' => a * b + dot r' x'
  | _, _ => 0
  end.

(** [M.dot(v)] *)
Definition mat_vec (M : matrix) (v : vector) : vector :=
  map (fun r => dot r v) M.


(** [np.linspace(start, stop, num)] *)
Definition np_linspace (start stop : Qc) (num : Z) : result vector :=
  if (num <? 0)%Z then inl ValueError
  else
    let step := (stop - start) / inZ (num - 1) in
    inr (map (fun i => start + inZ (Z.of_nat i) * step)
             (seq 0 (Z.to_nat num))).

(** [np.zeros((rows, cols))] *)
Definition np_zeros (rows cols : Z) : result matrix :=
  if ((rows <? 0) || (cols <? 0))%Z then inl ValueError
  else inr (repeat (repeat 0 (Z.to_nat cols)) (Z.to_nat rows)).

(** The slice [row[1:-1]]. *)
Definition interior (row : vector) : vector := removelast (tl row).

Fixpoint list_set {T : Type} (i : nat) (v : T) (l : list T) : list T :=
  match l, i with
  | [], _ => []
  | _ :: l', O => v :: l'
  | a :: l', S i' => a :: list_set i' v l'
  end.

(** [u[:, j] = v] on an array with [cols] columns; a negative [j] counts
    from the end. *)
Definition set_column (cols : Z) (u : matrix) (j : Z) (v : Qc) : result matrix :=
  let j' := if (j <? 0)%Z then (j + cols)%Z else j in
  if ((j' <? 0) || (cols <=? j'))%Z then inl IndexError
  else inr (map (list_set (Z.to_nat j') v) u).

(** The value stored by an assignment of [x] to a slice of length [n]: [x]
    must have length [n], or length 1 (it is then broadcast). *)
Definition slice_fill (n : nat) (x : vector) : result vector :=
  if (length x =? n)%nat then inr x
  else if (length x =? 1)%nat then inr (repeat (hd 0 x) n)
  else inl ValueError.

(** [row[1:-1] = x] *)
Definition assign_interior (row x : vector) : result vector :=
  let n := (length row - 2)%nat in
  y <- slice_fill n x ;;
  inr (firstn 1 row ++ y ++ skipn (S n) row).

(** [u[r, 1:-1] = x] *)
Definition set_row_interior (u : matrix) (r : nat) (x : vector) : result matrix :=
  if (r <? length u)%nat
  then row <- assign_interior (nth r u []) x ;; inr (list_set r row u)
  else inl IndexError.

(** ** The cell *)

(** *** Grid quantities (source lines 120-130) *)

(** The space grid [J = np.linspace(0,1,nx)] and the time grid
    [L = np.linspace(0,10,nt)]. *)
Definition J (nx : Z) : result vector := np_linspace 0 1 nx.
Definition L (nt : Z) : result vector := np_linspace 0 (inZ 10) nt.

(** [dx = 1/(nx-1)] and [dt = 1/(nt-1)] *)
Definition dx (nx : Z) : result Qc := py_div 1 (inZ (nx - 1)).
Definition dt (nt : Z) : result Qc := py_div 1 (inZ (nt - 1)).

(** [lbd = (D*dt)/(dx**2)] *)
Definition lbd (D : Qc) (nx nt : Z) : result Qc :=
  h <- dx nx ;; k <- dt nt ;; py_div (D * k) (h * h).

(** *** Coefficient matrices (source lines 142-143) *)

(** The arrays [A] and [B] of the source, as functions of [lbd] and [nx]. *)
Definition build_A (lam : Qc) (nx : Z) : result matrix :=
  M <- np_add (np_diag (py_repeat (two * (1 + lam)) (nx - 2)) 0)
              (np_diag (py_repeat (- lam) (nx - 3)) 1) ;;
  np_add M (np_diag (py_repeat (- lam) (nx - 3)) (-1)).

Definition build_B (lam : Qc) (nx : Z) : result matrix :=
  M <- np_add (np_diag (py_repeat (two * (1 - lam)) (nx - 2)) 0)
              (np_diag (py_repeat lam (nx - 3)) 1) ;;
  np_add M (np_diag (py_repeat lam (nx - 3)) (-1)).

(** *** The time loop (source lines 146-150) *)

Definition solver : Type := matrix -> vector -> option vector.

(** How a run ends: the loop ran through and left the field [u], or an
    exception was raised.  An exception raised inside the loop leaves the
    field as it was when the exception occurred; one raised before the loop
    is reported without a field. *)
Inductive outcome : Type :=
| Completed (u : matrix)
| Raised (e : PyError) (u : option matrix).

(** The loop body for one value of [l].  In the cell [B] is [nx - 2] by
    [nx - 2], like [A], and the rows of [u] have [nx] entries, so the shapes
    [B.dot] and [np.linalg.solve] require always agree; their shape errors
    are not modelled.  A failing solve is numpy's [LinAlgError]. *)
Definition time_step (solve : solver) (A B : matrix) (u : matrix) (l : nat)
  : result matrix :=
  let b := interior (nth l u []) in
  let b := mat_vec B b in
  match solve A b with
  | None => inl LinAlgError
  | Some sol => set_row_interior u (S l) sol
  end.

Fixpoint time_loop (solve : solver) (A B : matrix) (ls : list nat) (u : matrix)
  : outcome :=
  match ls with
  | [] => Completed u
  | l :: ls' =>
      match time_step solve A B u l with
      | inl e => Raised e (Some u)
      | inr u' => time_loop solve A B ls' u'
      end
  end.

(** [range(n)] *)
Definition py_range (n : Z) : list nat := seq 0 (Z.to_nat n).

(** *** The statements before the loop (source lines 120-143) *)

(** The field [u] as the loop finds it (source lines 132-139): [nt] rows of
    [nx] zeros, the two boundary columns, and the initial values [u0] in the
    interior of row 0. *)
Definition init_field (nx nt : Z) (BCs : Qc * Qc) (u0 : vector) : result matrix :=
  u <- np_zeros nt nx ;;
  u <- set_column nx u 0 (fst BCs) ;;
  u <- set_column nx u (-1) (snd BCs) ;;
  set_row_interior u 0 u0.

(** [init] stands for the initial profile, [np.sin(np.pi * x)] in the
    notebook, applied to the interior grid points [J[1:-1]].  [nx], [nt], [D]
    and [BCs] are the notebook's constants of these names. *)
Definition setup (nx nt : Z) (D : Qc) (BCs : Qc * Qc) (init : Qc -> Qc)
  : result (matrix * matrix * matrix) :=
  J <- J nx ;;
  _ <- L nt ;;
  lam <- lbd D nx nt ;;
  let u0 := map init (interior J) in
  u <- init_field nx nt BCs u0 ;;
  A <- build_A lam nx ;;
  B <- build_B lam nx ;;
  inr (A, B, u).

(** *** The cell as a whole *)

Definition heat_equation (solve : solver) (nx nt : Z) (D : Qc)
  (BCs : Qc * Qc) (init : Qc -> Qc) : outcome :=
  match setup nx nt D BCs init with
  | inl e => Raised e None
  | inr (A, B, u) => time_loop solve A B (py_range (nt - 1)) u
  end.

(** The notebook's constants, and its run for a solver and an initial
    profile. *)
Definition notebook_nx : Z := 501.
Definition notebook_nt : Z := 501.
Definition notebook_D : Qc := 1.
Definition notebook_BCs : Qc * Qc := (0, 0).

Definition notebook (solve : solver) (init : Qc -> Qc) : outcome :=
  heat_equation solve notebook_nx notebook_nt notebook_D notebook_BCs init.

(** *** The array [u] when a statement before the loop raises *)

(** [heat_equation] reports an exception raised before the loop without a
    field.  The array [u] exists from source line 132 on; these two
    functions give it as it is when such an exception is raised (and as the
    loop finds it when none is): nothing before line 132, then the array
    with the assignments of lines 136-139 that were carried out. *)
Definition init_field_state (nx nt : Z) (BCs : Qc * Qc) (u0 : vector)
  : option matrix :=
  match np_zeros nt nx with
  | inl _ => None
  | inr u =>
      match set_column nx u 0 (fst BCs) with
      | inl _ => Some u
      | inr u1 =>
          match set_column nx u1 (-1) (snd BCs) with
          | inl _ => Some u1
          | inr u2 =>
              match set_row_interior u2 0 u0 with
              | inl _ => Some u2
              | inr u3 => Some u3
              end
          end
      end
  end.

Definition field_before_loop (nx nt : Z) (D : Qc) (BCs : Qc * Qc)
  (init : Qc -> Qc) : option matrix :=
  match J nx with
  | inl _ => None
  | inr Jv =>
      match L nt with
      | inl _ => None
      | inr _ =>
          match lbd D nx nt with
          | inl _ => None
          | inr _ => init_field_state nx nt BCs (map init (interior Jv))
          end
      end
  end.

(** ** A linear solver: Gaussian elimination *)

Module Gauss.

Definition equation : Type := (vector * Qc)%type.

Definition vec_sub_scaled (f : Qc) (r p : vector) : vector :=
  map (fun q => fst q - f * snd q) (combine r p).

(** The first equation whose leading coefficient is not zero, and the
    others in their order. *)
Fixpoint find_pivot (eqs : list equation) : option (equation * list equation) :=
  match eqs with
  | [] => None
  | e :: eqs' =>
      if Qc_eq_bool (hd 0 (fst e)) 0
      then match find_pivot eqs' with
           | Some (p, rest) => Some (p, e :: rest)
           | None => None
           end
      else Some (e, eqs')
  end.

(** Remove the first unknown from [e] with the pivot equation [p]. *)
Definition eliminate (p e : equation) : equation :=
  let f := hd 0 (fst e) / hd 0 (fst p) in
  (vec_sub_scaled f (tl (fst e)) (tl (fst p)), snd e - f * snd p).

Fixpoint elim (n : nat) (eqs : list equation) : option vector :=
  match n with
  | O => Some []
  | S m =>
      match find_pivot eqs with
      | None => None
      | Some (p, rest) =>
          match elim m (map (eliminate p) rest) with
          | None => None
          | Some xs =>
              Some ((snd p - dot (tl (fst p)) xs) / hd 0 (fst p) :: xs)
          end
      end
  end.

Definition gauss_solve : solver :=
  fun A b => elim (length b) (combine A b).

(** An equation holds at [x]; its left-hand side vanishes at [y]; it has
    [n] coefficients. *)
Definition holds (x : vector) (e : equation) : Prop := dot (fst e) x = snd e.
Definition kills (y : vector) (e : equation) : Prop := dot (fst e) y = 0.
Definition width (n : nat) (e : equation) : Prop := length (fst e) = n.

End Gauss.

(** ** The scalar part of the cell in binary64 *)

(** Source lines 126-130 and 142-143 once more, on the kernel's binary64
    numbers, whose operations round to nearest, ties to even, as the
    notebook's do.  [nx] and [nt] are Python ints; [D] is taken as a float
    ([D * dt] converts an int [D] first). *)
Module B64.
Import Floats.

(** A Python int as a float; exact for [|z| <= 2^53]. *)
Definition of_Z (z : Z) : float :=
  if (z <? 0)%Z then (- of_uint63 (Uint63.of_Z (- z)))%float
  else of_uint63 (Uint63.of_Z z).

(** The rational a binary64 number stands for; 0 for an infinity and for
    NaN, which [finite] tells apart. *)
Definition value (x : float) : Qc :=
  match Prim2SF x with
  | S754_finite s m e =>
      let a := inZ (if s then Z.neg m else Z.pos m) in
      if (0 <=? e)%Z then a * inZ (2 ^ e) else a / inZ (2 ^ (- e))
  | _ => 0
  end.


Definition values (M : list (list float)) : matrix := map (map value) M.

(** [a / b] on two Python ints: the quotient rounded once, which is the
    quotient of the two floats when both ints are below [2^53]. *)
Definition int_div (a b : Z) : result float :=
  if (b =? 0)%Z then inl ZeroDivisionError
  else inr (of_Z a / of_Z b)%float.

(** [a / b] on two Python floats. *)
Definition float_div (a b : float) : result float :=
  if PrimFloat.eqb b 0%float then inl ZeroDivisionError
  else inr (a / b)%float.

(** [dx = 1/(nx-1)] and [dt = 1/(nt-1)] *)
Definition dx (nx : Z) : result float := int_div 1 (nx - 1).
Definition dt (nt : Z) : result float := int_div 1 (nt - 1).

(** [lbd = (D*dt)/(dx**2)], the square taken as the rounded product
    [dx * dx]. *)
Definition lbd (D : float) (nx nt : Z) : result float :=
  h <- dx nx ;; k <- dt nt ;; float_div (D * k)%float (h * h)%float.

Definition mat_of (n : nat) (f : nat -> nat -> float) : list (list float) :=
  map (fun i => map (fun j => f i j) (seq 0 n)) (seq 0 n).

Definition py_repeat (x : float) (count : Z) : list float :=
  repeat x (Z.to_nat count).

Definition np_diag (v : list float) (k : Z) : list (list float) :=
  mat_of (length v + Z.abs_nat k)
    (fun i j =>
       if (Z.of_nat j =? Z.of_nat i + k)%Z
       then nth (if (0 <=? k)%Z then i else j) v 0%float
       else 0%float).

Definition shape (M : list (list float)) : nat * nat :=
  (length M, length (hd [] M)).

Definition entry (M : list (list float)) (i j : nat) : float :=
  nth j (nth i M []) 0%float.

Definition vec_add (x y : list float) : list float :=
  map (fun p => (fst p + snd p)%float) (combine x y).

Definition mat_zip_add (M N : list (list float)) : list (list float) :=
  map (fun p => vec_add (fst p) (snd p)) (combine M N).

Definition np_add (M N : list (list float)) : result (list (list float)) :=
  if shape_eqb (shape M) (shape N) then inr (mat_zip_add M N)
  else if shape_eqb (shape N) (1, 1)%nat
  then inr (map (map (fun x => (x + entry N 0 0)%float)) M)
  else if shape_eqb (shape M) (1, 1)%nat
  then inr (map (map (fun y => (entry M 0 0 + y)%float)) N)
  else inl ValueError.

Definition build_A (lam : float) (nx : Z) : result (list (list float)) :=
  M <- np_add (np_diag (py_repeat (2 * (1 + lam))%float (nx - 2)) 0)
              (np_diag (py_repeat (- lam)%float (nx - 3)) 1) ;;
  np_add M (np_diag (py_repeat (- lam)%float (nx - 3)) (-1)).

Definition build_B (lam : float) (nx : Z) : result (list (list float)) :=
  M <- np_add (np_diag (py_repeat (2 * (1 - lam))%float (nx - 2)) 0)
              (np_diag (py_repeat lam (nx - 3)) 1) ;;
  np_add M (np_diag (py_repeat lam (nx - 3)) (-1)).

End B64.

(** * Notions used in the statements *)

(** The entries of a tridiagonal matrix with [d] on the diagonal and [o]
    next to it. *)
Definition tri (d o : Qc) (i j : nat) : Qc :=
  if (j =? i)%nat then d
  else if ((j =? S i) || (i =? S j))%nat then o
  else 0.

Definition square (n : nat) (M : matrix) : Prop :=
  length M = n /\ Forall (fun r => length r = n) M.

(** The entry before position [i], zero in front of the first one. *)
Definition prev (x : vector) (i : nat) : Qc :=
  match i with
  | O => 0
  | S k => nth k x 0
  end.

(** Row [i] of a tridiagonal matrix applied to [x]. *)
Definition tri_row (d o : Qc) (x : vector) (i : nat) : Qc :=
  d * nth i x 0 + o * nth (S i) x 0 + o * prev x i.

Definition zeros (n : nat) : vector := repeat 0 n.

(** What the time loop expects of the solver on a square system with a
    right-hand side of matching length (specification, section 4.5): a
    returned vector solves the system, and the solver fails only when the
    matrix is singular. *)
Definition solver_sound (solve : solver) : Prop :=
  forall n A b x, square n A -> length b = n ->
    solve A b = Some x -> length x = n /\ mat_vec A x = b.

Definition singular (n : nat) (A : matrix) : Prop :=
  exists y, length y = n /\ y <> zeros n /\ mat_vec A y = zeros n.

Definition solver_complete (solve : solver) : Prop :=
  forall n A b, square n A -> length b = n ->
    solve A b = None -> singular n A.

Definition solver_contract (solve : solver) : Prop :=
  solver_sound solve /\ solver_complete solve.


Definition fails_by_matrix (solve : solver) : Prop :=
  forall A b b', length b = length b' ->
    solve A b = None -> solve A b' = None.



(** The grid of the specification (section 3) and the quantities it
    derives, in the specification's words. *)
Record Grid : Type := {
  interior_count : Z;
  space_length : Qc;
  step_count : Z;
  total_time : Qc
}.

Definition valid_grid (g : Grid) : Prop :=
  (1 <= interior_count g)%Z /\ 0 < space_length g /\
  (1 <= step_count g)%Z /\ 0 < total_time g.

Definition spec_dx (g : Grid) : Qc :=
  space_length g / inZ (interior_count g + 1).

Definition spec_dt (g : Grid) : Qc := total_time g / inZ (step_count g).

Definition spec_lambda (D : Qc) (g : Grid) : Qc :=
  D * spec_dt g / (spec_dx g * spec_dx g).

(** The grid of a run of the cell with [nx] points and [nt] rows: [nx - 2]
    interior points on the interval of [J], from 0 to 1, and [nt - 1] steps
    of [dt = 1/(nt-1)], which cover the time 1. *)
Definition cell_grid (nx nt : Z) : Grid :=
  {| interior_count := nx - 2; space_length := 1;
     step_count := nt - 1; total_time := 1 |}.

Definition field_of (o : outcome) : option matrix :=
  match o with
  | Completed u => Some u
  | Raised _ ou => ou
  end.

(** The field the loop starts from, written out. *)
Definition initial_rows (n steps : nat) (BCs : Qc * Qc) (u0 : vector) : matrix :=
  (fst BCs :: u0 ++ [snd BCs])
    :: repeat (fst BCs :: zeros n ++ [snd BCs]) steps.

(** The values [dx], [dt] and [lbd] take when no division fails. *)
Definition dx_val (nx : Z) : Qc := 1 / inZ (nx - 1).
Definition dt_val (nt : Z) : Qc := 1 / inZ (nt - 1).
Definition lbd_val (D : Qc) (nx nt : Z) : Qc :=
  D * dt_val nt / (dx_val nx * dx_val nx).

(** An [n] by [n] matrix with [d] on the diagonal, [o] on the two
    neighbouring diagonals and zero everywhere else. *)
Definition is_tridiagonal (n : nat) (d o : Qc) (M : matrix) : Prop :=
  square n M /\
  (forall i, (i < n)%nat -> entry M i i = d) /\
  (forall i, (S i < n)%nat -> entry M i (S i) = o /\ entry M (S i) i = o) /\
  (forall i j, (i < n)%nat -> (j < n)%nat ->
               j <> i -> j <> S i -> i <> S j -> entry M i j = 0).




Definition field_shape (rows cols : nat) (u : matrix) : Prop :=
  length u = rows /\ forall r, (r < rows)%nat -> length (nth r u []) = cols.

(** [solve] returns a vector of length [n] for every right-hand side of
    length [n]. *)
Definition total_on (solve : solver) (A : matrix) (n : nat) : Prop :=
  forall b, length b = n -> exists x, solve A b = Some x /\ length x = n.


(** The initial interior values [u0]. *)
Definition initial_values (nx : Z) (init : Qc -> Qc) : vector :=
  match J nx with
  | inr Jv => map init (interior Jv)
  | inl _ => []
  end.

(** Every row of [u] starts with [left] and ends with [right]. *)
Definition bounded_by (left right : Qc) (rows : nat) (u : matrix) : Prop :=
  length u = rows /\
  forall r, (r < rows)%nat ->
    entry u r 0 = left /\ last (nth r u []) 0 = right.

Definition interiors (u : matrix) : list vector := map interior u.

(** An outcome with the boundary positions of the field left out. *)
Definition observe_interiors (o : outcome) : outcome :=
  match o with
  | Completed u => Completed (interiors u)
  | Raised e ou => Raised e (option_map interiors ou)
  end.

(** Two fields with rows of the same lengths and the same interiors. *)
Definition same_interiors (u1 u2 : matrix) : Prop :=
  interiors u1 = interiors u2 /\ map (@length Qc) u1 = map (@length Qc) u2.

(** ** Concrete inputs *)

(** The initial profile [x |-> 2 - 4 x]: on the grid of [nx = 5] points it
    gives the interior values [1, 0, -1]. *)
Definition ramp (x : Qc) : Qc := two - inZ 4 * x.

(** The field a run leaves behind, [[]] when the exception is raised before
    the field exists. *)
Definition field_or_empty (o : outcome) : matrix :=
  match field_of o with
  | Some u => u
  | None => []
  end.

(** The state before the loop, three empty arrays when an exception is
    raised before it. *)
Definition state_or_empty (r : result (matrix * matrix * matrix))
  : matrix * matrix * matrix :=
  match r with
  | inr t => t
  | inl _ => ([], [], [])
  end.

(** The array a statement gives, [[]] when it raises. *)
Definition vector_or_empty (r : result vector) : vector :=
  match r with
  | inr v => v
  | inl _ => []
  end.

(** A grid with one interior point and two steps on which [A] is the
    singular matrix [(0)]: [nx = nt = 3] and [D = -1/2] give [lbd = -1]. *)
Definition singular_D : Qc := - (1 / two).

(** * Proofs *)

(** ** Exact numbers *)

Lemma Qc_this_plus (x y : Qc) : (this (x + y) == this x + this y)%Q.
Proof. exact (Qred_correct _). Qed.

Lemma Qc_this_mult (x y : Qc) : (this (x * y) == this x * this y)%Q.
Proof. exact (Qred_correct _). Qed.

Lemma Qc_this_opp (x : Qc) : (this (- x) == - this x)%Q.
Proof. exact (Qred_correct _). Qed.

Lemma Qc_this_minus (x y : Qc) : (this (x - y) == this x - this y)%Q.
Proof. unfold Qcminus. rewrite Qc_this_plus, Qc_this_opp. reflexivity. Qed.

Lemma Qc_this_Q2Qc (q : Q) : (this (Q2Qc q) == q)%Q.
Proof. exact (Qred_correct _). Qed.

Lemma Qc_eq_this (x y : Qc) : x = y -> (this x == this y)%Q.
Proof. now intros ->. Qed.

Lemma Qc_neq_this (x y : Qc) : x <> y -> ~ (this x == this y)%Q.
Proof. intros H E. apply H. now apply Qc_is_canon. Qed.

(** Goals and hypotheses on [Qc] are moved to [Q], where [lra] and [nra]
    apply. *)
Ltac qc_to_q :=
  intros;
  repeat match goal with
  | H : @eq Qc _ _ |- _ => apply Qc_eq_this in H
  | H : not (@eq Qc _ _) |- _ => apply Qc_neq_this in H
  | |- @eq Qc _ _ => apply Qc_is_canon
  | |- not (@eq Qc _ _) => let E := fresh "E" in intro E
  end;
  unfold Qclt, Qcle, two, inZ in *;
  repeat rewrite ?Qc_this_plus, ?Qc_this_mult, ?Qc_this_opp,
                 ?Qc_this_minus, ?Qc_this_Q2Qc in *;
  unfold inject_Z in *.

Ltac qc_lra := qc_to_q; lra.
Ltac qc_nra := qc_to_q; nra.


Lemma Qc_minus_eq0 (a b : Qc) : a - b = 0 -> a = b.
Proof. qc_lra. Qed.

Lemma Qc_eq_bool_refl (x : Qc) : Qc_eq_bool x x = true.
Proof. unfold Qc_eq_bool. destruct (Qc_eq_dec x x); congruence. Qed.

Lemma Qc_eq_bool_true (x y : Qc) : Qc_eq_bool x y = true <-> x = y.
Proof.
  split; [apply Qc_eq_bool_correct | intros ->; apply Qc_eq_bool_refl].
Qed.

Lemma Qc_eq_bool_false (x y : Qc) : Qc_eq_bool x y = false <-> x <> y.
Proof.
  unfold Qc_eq_bool. destruct (Qc_eq_dec x y); split; congruence.
Qed.

(** ** Lists *)

Section ListFacts.

Context {T : Type}.

Lemma nth_map_seq (f : nat -> T) (n i : nat) (d : T) :
  (i < n)%nat -> nth i (map f (seq 0 n)) d = f i.
Proof.
  intros Hi.
  rewrite (nth_indep _ d (f O)) by (rewrite length_map, length_seq; exact Hi).
  rewrite map_nth, seq_nth by exact Hi. reflexivity.
Qed.

Lemma nth_repeat_lt (c d : T) (m i : nat) :
  (i < m)%nat -> nth i (repeat c m) d = c.
Proof.
  revert i. induction m as [|m IH]; intros [|i] Hi; simpl; try lia; auto.
  apply IH. lia.
Qed.

Lemma combine_map_same {U V : Type} (f : T -> U) (g : T -> V) (l : list T) :
  combine (map f l) (map g l) = map (fun x => (f x, g x)) l.
Proof. induction l as [|a l IH]; simpl; [reflexivity | now rewrite IH]. Qed.

End ListFacts.

(** ** The shape and the entries of the coefficient matrices *)

Lemma length_mat_of (n : nat) (f : nat -> nat -> Qc) : length (mat_of n f) = n.
Proof. unfold mat_of. now rewrite length_map, length_seq. Qed.

Lemma square_mat_of (n : nat) (f : nat -> nat -> Qc) : square n (mat_of n f).
Proof.
  split; [apply length_mat_of|].
  unfold mat_of. apply Forall_map, Forall_forall. intros i _.
  now rewrite length_map, length_seq.
Qed.

Lemma shape_mat_of (n : nat) (f : nat -> nat -> Qc) :
  shape (mat_of n f) = (n, n).
Proof.
  unfold shape. rewrite length_mat_of. destruct n as [|n]; [reflexivity|].
  unfold mat_of. cbn [seq map hd]. f_equal.
  change (S (length (map (fun j => f O j) (seq 1 n))) = S n).
  now rewrite length_map, length_seq.
Qed.

Lemma nth_mat_of (n : nat) (f : nat -> nat -> Qc) (i : nat) :
  (i < n)%nat -> nth i (mat_of n f) [] = map (fun j => f i j) (seq 0 n).
Proof. intros Hi. unfold mat_of. now rewrite nth_map_seq. Qed.

Lemma entry_mat_of (n : nat) (f : nat -> nat -> Qc) (i j : nat) :
  (i < n)%nat -> (j < n)%nat -> entry (mat_of n f) i j = f i j.
Proof.
  intros Hi Hj. unfold entry. rewrite nth_mat_of by exact Hi.
  now rewrite nth_map_seq.
Qed.

Lemma mat_of_ext (n : nat) (f g : nat -> nat -> Qc) :
  (forall i j, (i < n)%nat -> (j < n)%nat -> f i j = g i j) ->
  mat_of n f = mat_of n g.
Proof.
  intros H. unfold mat_of. apply map_ext_in. intros i Hi.
  apply map_ext_in. intros j Hj. apply in_seq in Hi, Hj. apply H; lia.
Qed.

Lemma mat_zip_add_mat_of (n : nat) (f g : nat -> nat -> Qc) :
  mat_zip_add (mat_of n f) (mat_of n g) = mat_of n (fun i j => f i j + g i j).
Proof.
  unfold mat_zip_add, mat_of. rewrite combine_map_same, map_map.
  apply map_ext. intros i. cbn [fst snd]. unfold vec_add.
  now rewrite combine_map_same, map_map.
Qed.

Lemma np_add_mat_of (n : nat) (f g : nat -> nat -> Qc) :
  np_add (mat_of n f) (mat_of n g) = inr (mat_of n (fun i j => f i j + g i j)).
Proof.
  unfold np_add. rewrite !shape_mat_of. unfold shape_eqb. cbn [fst snd].
  rewrite Nat.eqb_refl. cbn [andb]. now rewrite mat_zip_add_mat_of.
Qed.

(** The sum of the three [np.diag] arrays of source lines 142-143 is the
    tridiagonal matrix, for [nx - 2 = n >= 1] interior points. *)
Lemma np_tridiag (d o : Qc) (n : nat) :
  (1 <= n)%nat ->
  (M <- np_add (np_diag (py_repeat d (Z.of_nat n + 2 - 2)) 0)
               (np_diag (py_repeat o (Z.of_nat n + 2 - 3)) 1) ;;
   np_add M (np_diag (py_repeat o (Z.of_nat n + 2 - 3)) (-1)))
  = inr (mat_of n (tri d o)).
Proof.
  intros Hn. unfold np_diag, py_repeat. rewrite !repeat_length.
  replace (Z.to_nat (Z.of_nat n + 2 - 2)) with n by lia.
  replace (Z.to_nat (Z.of_nat n + 2 - 3)) with (n - 1)%nat by lia.
  replace (n + Z.abs_nat 0)%nat with n by lia.
  replace (n - 1 + Z.abs_nat 1)%nat with n by lia.
  replace (n - 1 + Z.abs_nat (-1))%nat with n by lia.
  rewrite np_add_mat_of. cbn [bind]. rewrite np_add_mat_of. f_equal.
  apply mat_of_ext. intros i j Hi Hj. unfold tri.
  change (0 <=? 0)%Z with true. change (0 <=? 1)%Z with true.
  change (0 <=? -1)%Z with false. cbv iota.
  destruct (Nat.eqb_spec j i) as [->|Hji].
  - rewrite Z.add_0_r, Z.eqb_refl.
    rewrite nth_repeat_lt by exact Hi.
    destruct (Z.eqb_spec (Z.of_nat i) (Z.of_nat i + 1)); [lia|].
    destruct (Z.eqb_spec (Z.of_nat i) (Z.of_nat i + -1)); [lia|].
    ring.
  - destruct (Z.eqb_spec (Z.of_nat j) (Z.of_nat i + 0)); [lia|].
    destruct (Nat.eqb_spec j (S i)) as [->|Hup].
    + destruct (Z.eqb_spec (Z.of_nat (S i)) (Z.of_nat i + 1)); [|lia].
      destruct (Z.eqb_spec (Z.of_nat (S i)) (Z.of_nat i + -1)); [lia|].
      rewrite nth_repeat_lt by lia. cbn [orb]. ring.
    + destruct (Z.eqb_spec (Z.of_nat j) (Z.of_nat i + 1)); [lia|].
      destruct (Nat.eqb_spec i (S j)) as [->|Hlo].
      * destruct (Z.eqb_spec (Z.of_nat j) (Z.of_nat (S j) + -1)); [|lia].
        rewrite nth_repeat_lt by lia. cbn [orb]. ring.
      * destruct (Z.eqb_spec (Z.of_nat j) (Z.of_nat i + -1)); [lia|].
        cbn [orb]. ring.
Qed.

Lemma build_A_tri (lam : Qc) (n : nat) :
  (1 <= n)%nat ->
  build_A lam (Z.of_nat n + 2) = inr (mat_of n (tri (two * (1 + lam)) (- lam))).
Proof. intros Hn. unfold build_A. now apply np_tridiag. Qed.

Lemma build_B_tri (lam : Qc) (n : nat) :
  (1 <= n)%nat ->
  build_B lam (Z.of_nat n + 2) = inr (mat_of n (tri (two * (1 - lam)) lam)).
Proof. intros Hn. unfold build_B. now apply np_tridiag. Qed.

(** ** Products with a tridiagonal matrix *)

Lemma dot_nil_r (r : vector) : dot r [] = 0.
Proof. destruct r; reflexivity. Qed.

Lemma dot_map_add (f g : nat -> Qc) (l : list nat) (x : vector) :
  dot (map (fun j => f j + g j) l) x = dot (map f l) x + dot (map g l) x.
Proof.
  revert x. induction l as [|a l IH]; intros [|b x]; cbn [map dot]; try ring.
  rewrite IH. ring.
Qed.

Lemma dot_map_zero (l : list nat) (x : vector) :
  dot (map (fun _ => 0) l) x = 0.
Proof.
  revert x. induction l as [|a l IH]; intros [|b x]; cbn [map dot]; try ring.
  rewrite IH. ring.
Qed.

Lemma dot_delta (c : Qc) (a n s : nat) (x : vector) :
  dot (map (fun j => if (j =? a)%nat then c else 0) (seq s n)) x
  = if ((s <=? a) && (a <? s + n))%nat then c * nth (a - s) x 0 else 0.
Proof.
  revert s x. induction n as [|n IH]; intros s x.
  - cbn [seq map dot].
    destruct (Nat.leb_spec s a), (Nat.ltb_spec a (s + 0)); cbn [andb];
      try reflexivity; lia.
  - destruct x as [|b x].
    + rewrite dot_nil_r. destruct (a - s)%nat; cbn [nth];
        destruct ((s <=? a) && (a <? s + S n))%nat; ring.
    + cbn [seq map dot]. rewrite IH.
      destruct (Nat.eqb_spec s a) as [->|Hsa].
      * replace (a - a)%nat with O by lia. cbn [nth].
        destruct (Nat.leb_spec (S a) a); [lia|].
        destruct (Nat.leb_spec a a); [|lia].
        destruct (Nat.ltb_spec a (a + S n)); [|lia]. cbn [andb]. ring.
      * destruct (Nat.leb_spec (S s) a), (Nat.leb_spec s a); try lia;
          destruct (Nat.ltb_spec a (S s + n)), (Nat.ltb_spec a (s + S n));
          try lia; cbn [andb]; try ring.
        replace (a - s)%nat with (S (a - S s)) by lia. cbn [nth]. ring.
Qed.

Lemma tri_split (d o : Qc) (i j : nat) :
  tri d o i j
  = (if (j =? i)%nat then d else 0)
    + ((if (j =? S i)%nat then o else 0)
       + (match i with
          | O => 0
          | S k => if (j =? k)%nat then o else 0
          end)).
Proof.
  unfold tri.
  destruct (Nat.eqb_spec j i) as [->|Hji].
  - destruct (Nat.eqb_spec i (S i)); [lia|].
    destruct i as [|k]; [ring|].
    destruct (Nat.eqb_spec (S k) k); [lia|]. ring.
  - destruct (Nat.eqb_spec j (S i)) as [->|Hup]; cbn [orb].
    + destruct i as [|k]; [ring|].
      destruct (Nat.eqb_spec (S (S k)) k); [lia|]. ring.
    + destruct i as [|k].
      * destruct (Nat.eqb_spec 0 (S j)); [lia|]. ring.
      * change (S k =? S j)%nat with (k =? j)%nat. rewrite (Nat.eqb_sym k j).
        destruct (j =? k)%nat; ring.
Qed.

Lemma nth_overflow_0 (x : vector) (i : nat) :
  (length x <= i)%nat -> nth i x 0 = 0.
Proof. apply nth_overflow. Qed.

Lemma dot_tri_row (d o : Qc) (n i : nat) (x : vector) :
  length x = n -> (i < n)%nat ->
  dot (map (tri d o i) (seq 0 n)) x = tri_row d o x i.
Proof.
  intros Hx Hi.
  rewrite (map_ext _ _ (tri_split d o i)).
  rewrite dot_map_add, dot_map_add, !dot_delta. unfold tri_row.
  cbn [Nat.leb andb]. rewrite !Nat.sub_0_r. cbn [Nat.add].
  destruct (Nat.ltb_spec i n); [|lia].
  assert (Hup : (if (S i <? n)%nat then o * nth (S i) x 0 else 0)
                = o * nth (S i) x 0).
  { destruct (Nat.ltb_spec (S i) n); [reflexivity|].
    rewrite nth_overflow_0 by lia. ring. }
  rewrite Hup.
  destruct i as [|k]; cbn [prev].
  - rewrite dot_map_zero. ring.
  - rewrite dot_delta. cbn [Nat.leb andb Nat.add]. rewrite Nat.sub_0_r.
    destruct (Nat.ltb_spec k n); [|lia]. ring.
Qed.

Lemma mat_vec_tri (d o : Qc) (n : nat) (x : vector) :
  length x = n ->
  mat_vec (mat_of n (tri d o)) x = map (tri_row d o x) (seq 0 n).
Proof.
  intros Hx. unfold mat_vec, mat_of. rewrite map_map.
  apply map_ext_in. intros i Hi. apply in_seq in Hi.
  apply dot_tri_row; [exact Hx | lia].
Qed.

(** ** Sums of the entries *)











(** ** The implicit matrix is nonsingular for positive [lam] *)

Lemma max_index (f : nat -> Qc) (n : nat) :
  (1 <= n)%nat -> exists m, (m < n)%nat /\ forall j, (j < n)%nat -> f j <= f m.
Proof.
  induction n as [|n IH]; [lia|]. intros _.
  destruct n as [|n].
  - exists O. split; [lia|]. intros j Hj. replace j with O by lia.
    apply Qcle_refl.
  - destruct IH as [m [Hm Hmax]]; [lia|].
    destruct (Qclt_le_dec (f m) (f (S n))) as [Hlt|Hle].
    + exists (S n). split; [lia|]. intros j Hj.
      destruct (Nat.eq_dec j (S n)) as [->|Hne]; [apply Qcle_refl|].
      apply Qcle_trans with (f m); [apply Hmax; lia|].
      now apply Qclt_le_weak.
    + exists m. split; [lia|]. intros j Hj.
      destruct (Nat.eq_dec j (S n)) as [->|Hne]; [exact Hle|].
      apply Hmax. lia.
Qed.

Lemma tri_row_opp (d o : Qc) (x : vector) (i : nat) :
  tri_row d o (map Qcopp x) i = - tri_row d o x i.
Proof.
  assert (Hnth : forall k, nth k (map Qcopp x) 0 = - nth k x 0).
  { intros k. change 0 with (- 0) at 1. apply map_nth. }
  unfold tri_row. rewrite !Hnth.
  destruct i as [|k]; cbn [prev]; [|rewrite Hnth]; ring.
Qed.

(** Maximum principle: a vector that the implicit matrix sends to zero has
    no positive entry. *)
Lemma tri_row_nonpos (lam : Qc) (n : nat) (x : vector) :
  0 < lam -> length x = n ->
  (forall i, (i < n)%nat -> tri_row (two * (1 + lam)) (- lam) x i = 0) ->
  forall i, (i < n)%nat -> nth i x 0 <= 0.
Proof.
  intros Hlam Hx Hrow i Hi.
  destruct (max_index (fun j => nth j x 0) (n := n)) as [m [Hm Hmax]]; [lia|].
  apply Qcle_trans with (nth m x 0); [now apply Hmax|].
  destruct (Qclt_le_dec 0 (nth m x 0)) as [Hpos|Hle]; [exfalso | exact Hle].
  assert (Hnext : nth (S m) x 0 <= nth m x 0).
  { destruct (Nat.lt_ge_cases (S m) n) as [Hin|Hout]; [now apply Hmax|].
    rewrite nth_overflow_0 by lia. now apply Qclt_le_weak. }
  assert (Hprev : prev x m <= nth m x 0).
  { destruct m as [|k]; cbn [prev];
      [now apply Qclt_le_weak | apply Hmax; lia]. }
  specialize (Hrow m Hm). unfold tri_row in Hrow.
  revert Hrow Hnext Hprev Hpos Hlam.
  generalize (nth m x 0) (nth (S m) x 0) (prev x m). clear.
  intros a b c. qc_nra.
Qed.

Lemma dot_zeros (r : vector) (n : nat) : dot r (zeros n) = 0.
Proof.
  revert n. induction r as [|a r IH]; intros [|n]; cbn [zeros repeat dot];
    try reflexivity.
  change (repeat 0 n) with (zeros n). rewrite IH. ring.
Qed.

Lemma nth_zeros (n i : nat) : nth i (zeros n) 0 = 0.
Proof.
  unfold zeros. destruct (Nat.lt_ge_cases i n).
  - now apply nth_repeat_lt.
  - apply nth_overflow. rewrite repeat_length. lia.
Qed.

Lemma tri_implicit_injective (lam : Qc) (n : nat) (x : vector) :
  0 < lam -> length x = n ->
  mat_vec (mat_of n (tri (two * (1 + lam)) (- lam))) x = zeros n ->
  x = zeros n.
Proof.
  intros Hlam Hx Hz. rewrite mat_vec_tri in Hz by exact Hx.
  assert (Hrow : forall i, (i < n)%nat ->
                           tri_row (two * (1 + lam)) (- lam) x i = 0).
  { intros i Hi. rewrite <- (nth_zeros n i), <- Hz.
    symmetry. now apply nth_map_seq. }
  apply (nth_ext _ _ 0 0); [unfold zeros; now rewrite repeat_length|].
  intros i Hi. rewrite nth_zeros. rewrite Hx in Hi.
  apply Qcle_antisym.
  - now apply (tri_row_nonpos Hlam Hx Hrow).
  - assert (Hneg : nth i (map Qcopp x) 0 <= 0).
    { apply (tri_row_nonpos (n := n) Hlam); [now rewrite length_map | | exact Hi].
      intros k Hk. rewrite tri_row_opp, Hrow by exact Hk. ring. }
    change 0 with (- 0) in Hneg at 1. rewrite map_nth in Hneg.
    revert Hneg. generalize (nth i x 0). clear. intros a. qc_lra.
Qed.

(** ** Gaussian elimination meets the solver contract *)

Module GaussFacts.
Import Gauss.

Lemma dot_sub_scaled (f : Qc) (r p x : vector) :
  length r = length p ->
  dot (vec_sub_scaled f r p) x = dot r x - f * dot p x.
Proof.
  unfold vec_sub_scaled. revert p x.
  induction r as [|a r IH]; intros [|b p] [|c x] Hlen;
    cbn [length] in Hlen; try discriminate;
    cbn [combine map dot fst snd]; try ring.
  rewrite IH by lia. ring.
Qed.

Lemma length_sub_scaled (f : Qc) (r p : vector) :
  length r = length p -> length (vec_sub_scaled f r p) = length r.
Proof.
  intros H. unfold vec_sub_scaled. rewrite length_map, length_combine. lia.
Qed.

Lemma width_S (m : nat) (e : equation) :
  width (S m) e -> fst e = hd 0 (fst e) :: tl (fst e) /\ length (tl (fst e)) = m.
Proof.
  unfold width. destruct (fst e) as [|a r]; cbn [length hd tl];
    [discriminate | intros H; split; [reflexivity | lia]].
Qed.

Lemma find_pivot_some (eqs : list equation) (p : equation) (rest : list equation) :
  find_pivot eqs = Some (p, rest) ->
  hd 0 (fst p) <> 0 /\ length eqs = S (length rest) /\
  forall P : equation -> Prop, Forall P eqs <-> P p /\ Forall P rest.
Proof.
  revert p rest. induction eqs as [|e eqs IH]; intros p rest H;
    cbn [find_pivot] in H; [discriminate|].
  destruct (Qc_eq_bool (hd 0 (fst e)) 0) eqn:Hz.
  - destruct (find_pivot eqs) as [[p' rest']|]; [|discriminate].
    injection H as <- <-. destruct (IH p' rest' eq_refl) as (Hp & Hlen & HP).
    split; [exact Hp|]. split; [cbn [length]; lia|].
    intros P. rewrite !Forall_cons_iff, HP. tauto.
  - injection H as <- <-. apply Qc_eq_bool_false in Hz.
    split; [exact Hz|]. split; [reflexivity|].
    intros P. apply Forall_cons_iff.
Qed.

Lemma find_pivot_none (eqs : list equation) :
  find_pivot eqs = None -> Forall (fun e => hd 0 (fst e) = 0) eqs.
Proof.
  induction eqs as [|e eqs IH]; intros H; cbn [find_pivot] in H;
    [constructor|].
  destruct (Qc_eq_bool (hd 0 (fst e)) 0) eqn:Hz; [|discriminate].
  apply Qc_eq_bool_true in Hz.
  destruct (find_pivot eqs) as [[p' rest']|]; [discriminate|].
  constructor; auto.
Qed.

Lemma width_eliminate (m : nat) (p e : equation) :
  width (S m) p -> width (S m) e -> width m (eliminate p e).
Proof.
  intros Hp He. apply width_S in Hp, He.
  unfold width, eliminate. cbn [fst].
  rewrite length_sub_scaled; lia.
Qed.

Lemma elim_sound (n : nat) (eqs : list equation) (x : vector) :
  length eqs = n -> Forall (width n) eqs -> elim n eqs = Some x ->
  length x = n /\ Forall (holds x) eqs.
Proof.
  revert eqs x. induction n as [|m IH]; intros eqs x Hlen Hw H; cbn [elim] in H.
  - injection H as <-. apply length_zero_iff_nil in Hlen. subst eqs.
    split; [reflexivity | constructor].
  - destruct (find_pivot eqs) as [[p rest]|] eqn:Hpiv; [|discriminate].
    destruct (find_pivot_some _ Hpiv) as (Ha & Hl & HP).
    apply HP in Hw. destruct Hw as [Hwp Hwr].
    destruct (elim m (map (eliminate p) rest)) as [xs|] eqn:Hrec; [|discriminate].
    injection H as <-.
    destruct (IH (map (eliminate p) rest) xs) as [Hxs Hrest].
    + rewrite length_map. lia.
    + apply Forall_map. revert Hwr. apply Forall_impl.
      intros e. now apply width_eliminate.
    + exact Hrec.
    + split; [cbn [length]; now rewrite Hxs|].
      apply HP. destruct (width_S Hwp) as [Ep Lp].
      split.
      * unfold holds. rewrite Ep at 1. cbn [dot]. field. exact Ha.
      * rewrite Forall_map in Hrest. rewrite Forall_forall in *.
        intros e He. specialize (Hrest e He). specialize (Hwr e He).
        destruct (width_S Hwr) as [Ee Le].
        unfold holds, eliminate in *. cbn [fst snd] in Hrest.
        rewrite dot_sub_scaled in Hrest by lia.
        rewrite Ee at 1. cbn [dot].
        assert (Hs : snd e = dot (tl (fst e)) xs
                             - hd 0 (fst e) / hd 0 (fst p) * dot (tl (fst p)) xs
                             + hd 0 (fst e) / hd 0 (fst p) * snd p)
          by (rewrite Hrest; ring).
        rewrite Hs. field. exact Ha.
Qed.

Lemma elim_complete (n : nat) (eqs : list equation) :
  length eqs = n -> Forall (width n) eqs -> elim n eqs = None ->
  exists y, length y = n /\ y <> zeros n /\ Forall (kills y) eqs.
Proof.
  revert eqs. induction n as [|m IH]; intros eqs Hlen Hw H; cbn [elim] in H;
    [discriminate|].
  destruct (find_pivot eqs) as [[p rest]|] eqn:Hpiv.
  - destruct (find_pivot_some _ Hpiv) as (Ha & Hl & HP).
    apply HP in Hw. destruct Hw as [Hwp Hwr].
    destruct (elim m (map (eliminate p) rest)) as [xs|] eqn:Hrec; [discriminate|].
    destruct (IH (map (eliminate p) rest)) as (y & Hy & Hnz & Hk).
    + rewrite length_map. lia.
    + apply Forall_map. revert Hwr. apply Forall_impl.
      intros e. now apply width_eliminate.
    + exact Hrec.
    + destruct (width_S Hwp) as [Ep Lp].
      exists (- dot (tl (fst p)) y / hd 0 (fst p) :: y).
      split; [cbn [length]; now rewrite Hy|]. split.
      * intros E. apply Hnz. cbn [zeros repeat] in E. now injection E.
      * apply HP. split.
        -- unfold kills. rewrite Ep at 1. cbn [dot]. field. exact Ha.
        -- rewrite Forall_map in Hk. rewrite Forall_forall in *.
           intros e He. specialize (Hk e He). specialize (Hwr e He).
           destruct (width_S Hwr) as [Ee Le].
           unfold kills, eliminate in *. cbn [fst snd] in Hk.
           rewrite dot_sub_scaled in Hk by lia.
           rewrite Ee at 1. cbn [dot].
           assert (Hs : dot (tl (fst e)) y
                        = hd 0 (fst e) / hd 0 (fst p) * dot (tl (fst p)) y)
             by (apply Qc_minus_eq0; exact Hk).
           rewrite Hs. field. exact Ha.
  - apply find_pivot_none in Hpiv.
    exists (1 :: zeros m). split; [unfold zeros; cbn [length]; now rewrite repeat_length|].
    split.
    + cbn [zeros repeat]. intros E. apply (f_equal (hd 0)) in E.
      cbn [hd] in E. revert E. clear. intros E. apply Qc_eq_this in E.
      discriminate E.
    + rewrite Forall_forall in *. intros e He.
      specialize (Hpiv e He). specialize (Hw e He).
      unfold kills, width in *.
      destruct e as [[|a r] c]; cbn [fst snd hd] in *; [discriminate Hw|].
      subst a. cbn [dot]. rewrite dot_zeros. ring.
Qed.

Lemma holds_mat_vec (A : matrix) (b x : vector) :
  length A = length b -> Forall (holds x) (combine A b) -> mat_vec A x = b.
Proof.
  revert b. induction A as [|r A IH]; intros [|c b] Hlen H;
    cbn [length] in Hlen; try discriminate; [reflexivity|].
  cbn [combine] in H. apply Forall_cons_iff in H. destruct H as [Hr H].
  cbn [mat_vec map]. f_equal; [exact Hr|]. apply IH; [lia | exact H].
Qed.

Lemma kills_mat_vec (A : matrix) (b y : vector) :
  length A = length b -> Forall (kills y) (combine A b) ->
  mat_vec A y = zeros (length A).
Proof.
  revert b. induction A as [|r A IH]; intros [|c b] Hlen H;
    cbn [length] in Hlen; try discriminate; [reflexivity|].
  cbn [combine] in H. apply Forall_cons_iff in H. destruct H as [Hr H].
  cbn [mat_vec map length zeros repeat]. f_equal; [exact Hr|].
  apply (IH b); [lia | exact H].
Qed.

Lemma width_combine (n : nat) (A : matrix) (b : vector) :
  Forall (fun r => length r = n) A -> Forall (width n) (combine A b).
Proof.
  intros H. revert b. induction H as [|r A Hr H IH]; intros [|c b];
    cbn [combine]; constructor; [exact Hr | apply IH].
Qed.

Lemma gauss_sound : solver_sound gauss_solve.
Proof.
  intros n A b x [HA HW] Hb H. unfold gauss_solve in H. rewrite Hb in H.
  assert (Hlen : length (combine A b) = n) by (rewrite length_combine; lia).
  destruct (elim_sound Hlen (width_combine b HW) H) as [Hx Hh].
  split; [exact Hx|]. apply holds_mat_vec; [lia | exact Hh].
Qed.

Lemma gauss_complete : solver_complete gauss_solve.
Proof.
  intros n A b [HA HW] Hb H. unfold gauss_solve in H. rewrite Hb in H.
  assert (Hlen : length (combine A b) = n) by (rewrite length_combine; lia).
  destruct (elim_complete Hlen (width_combine b HW) H) as (y & Hy & Hnz & Hk).
  exists y. split; [exact Hy|]. split; [exact Hnz|].
  rewrite <- HA. apply kills_mat_vec with b; [lia | exact Hk].
Qed.

Lemma gauss_contract : solver_contract gauss_solve.
Proof. split; [apply gauss_sound | apply gauss_complete]. Qed.

End GaussFacts.

(** ** Rows of the field and assignments to them *)

Lemma row_split (row : vector) :
  (2 <= length row)%nat ->
  row = hd 0 row :: interior row ++ [last row 0].
Proof.
  destruct row as [|a [|b t]]; cbn [length]; try lia. intros _.
  unfold interior. cbn [hd tl]. f_equal.
  change (last (a :: b :: t) 0) with (last (b :: t) 0).
  apply app_removelast_last. discriminate.
Qed.

Lemma length_interior (row : vector) :
  length (interior row) = (length row - 2)%nat.
Proof.
  destruct row as [|a [|b t]]; try reflexivity.
  rewrite (@row_split (a :: b :: t)) at 2 by (cbn [length]; lia).
  cbn [length]. rewrite length_app. cbn [length]. lia.
Qed.

Lemma length_slice_fill (n : nat) (x y : vector) :
  slice_fill n x = inr y -> length y = n.
Proof.
  unfold slice_fill. destruct (Nat.eqb_spec (length x) n) as [E|_].
  - now intros [= <-].
  - destruct (length x =? 1)%nat; [|discriminate].
    intros [= <-]. apply repeat_length.
Qed.

Lemma slice_fill_exact (x : vector) : slice_fill (length x) x = inr x.
Proof. unfold slice_fill. now rewrite Nat.eqb_refl. Qed.

(** Writing [y] between the two ends of [row]. *)
Lemma rebuild_row (row y : vector) :
  length y = (length row - 2)%nat ->
  let row' := firstn 1 row ++ y ++ skipn (S (length row - 2)) row in
  length row' = length row /\ interior row' = y /\
  (forall c, c = O \/ (length row <= S c)%nat -> nth c row' 0 = nth c row 0) /\
  last row' 0 = last row 0.
Proof.
  intros Hy. destruct (Nat.lt_ge_cases (length row) 2) as [Hshort|Hrow].
  - destruct row as [|a [|b t]]; cbn [length] in Hshort, Hy; try lia;
      (destruct y; [|discriminate]); cbn; repeat split; reflexivity.
  - pose proof (@row_split row Hrow) as E.
    remember (hd 0 row) as a eqn:Ea. remember (interior row) as mid eqn:Em.
    remember (last row 0) as z eqn:Ez. clear Ea Em Ez Hrow. subst row.
    assert (Hn : (length (a :: mid ++ [z]) - 2)%nat = length mid)
      by (cbn [length]; rewrite length_app; cbn [length]; lia).
    rewrite Hn in *. cbv zeta. cbn [firstn skipn app].
    rewrite skipn_app, skipn_all, Nat.sub_diag. cbn [skipn app].
    repeat split.
    + cbn [length]. rewrite !length_app. cbn [length]. lia.
    + unfold interior. cbn [tl]. apply removelast_last.
    + intros c [->|Hc]; [reflexivity|].
      cbn [length] in Hc. rewrite length_app in Hc. cbn [length] in Hc.
      destruct c as [|c]; [lia|]. cbn [nth].
      rewrite !app_nth2 by lia. now rewrite Hy.
    + rewrite !app_comm_cons, !last_last. reflexivity.
Qed.

Lemma assign_interior_spec (row x row' : vector) :
  assign_interior row x = inr row' ->
  exists y, slice_fill (length row - 2) x = inr y /\
    length row' = length row /\ interior row' = y /\
    (forall c, c = O \/ (length row <= S c)%nat -> nth c row' 0 = nth c row 0) /\
    last row' 0 = last row 0.
Proof.
  unfold assign_interior.
  destruct (slice_fill (length row - 2) x) as [e|y] eqn:Hy; cbn [bind];
    [discriminate|].
  intros [= <-]. exists y. split; [reflexivity|].
  apply rebuild_row. now apply length_slice_fill in Hy.
Qed.

Section ListSet.

Context {T : Type}.

Lemma length_list_set (i : nat) (v : T) (l : list T) :
  length (list_set i v l) = length l.
Proof.
  revert i. induction l as [|a l IH]; intros [|i]; cbn [list_set length];
    auto.
Qed.

Lemma nth_list_set_eq (i : nat) (v d : T) (l : list T) :
  (i < length l)%nat -> nth i (list_set i v l) d = v.
Proof.
  revert i. induction l as [|a l IH]; intros [|i] Hi; cbn [length] in Hi;
    cbn [list_set nth]; try lia; auto.
  apply IH. lia.
Qed.

Lemma nth_list_set_neq (i j : nat) (v d : T) (l : list T) :
  i <> j -> nth j (list_set i v l) d = nth j l d.
Proof.
  revert i j. induction l as [|a l IH]; intros [|i] [|j] Hij;
    cbn [list_set nth]; try congruence; auto.
Qed.

Lemma map_list_set {U : Type} (f : T -> U) (i : nat) (v : T) (l : list T) :
  map f (list_set i v l) = list_set i (f v) (map f l).
Proof.
  revert i. induction l as [|a l IH]; intros [|i]; cbn [list_set map];
    try reflexivity. now rewrite IH.
Qed.

Lemma list_set_same (i : nat) (d : T) (l : list T) :
  list_set i (nth i l d) l = l.
Proof.
  revert i. induction l as [|a l IH]; intros [|i]; cbn [list_set nth];
    try reflexivity. now rewrite IH.
Qed.

End ListSet.

(** ** One step of the loop *)

Lemma set_row_interior_spec (u : matrix) (r : nat) (x : vector) (u' : matrix) :
  set_row_interior u r x = inr u' ->
  (r < length u)%nat /\
  exists row', assign_interior (nth r u []) x = inr row' /\
               u' = list_set r row' u.
Proof.
  unfold set_row_interior. destruct (Nat.ltb_spec r (length u)); [|discriminate].
  destruct (assign_interior (nth r u []) x) as [e|row'] eqn:Hrow; cbn [bind];
    [discriminate|].
  intros [= <-]. split; [assumption|]. now exists row'.
Qed.

Lemma time_step_spec (solve : solver) (A B u : matrix) (l : nat) (u' : matrix) :
  time_step solve A B u l = inr u' ->
  exists sol row',
    solve A (mat_vec B (interior (nth l u []))) = Some sol /\
    (S l < length u)%nat /\
    assign_interior (nth (S l) u []) sol = inr row' /\
    u' = list_set (S l) row' u.
Proof.
  unfold time_step.
  destruct (solve A (mat_vec B (interior (nth l u [])))) as [sol|];
    [|discriminate].
  intros H. apply set_row_interior_spec in H.
  destruct H as [Hl [row' [Hrow ->]]]. now exists sol, row'.
Qed.

(** A step leaves every row but row [l+1] as it is, and in row [l+1] the
    two end positions. *)
Lemma time_step_frame (solve : solver) (A B u : matrix) (l : nat) (u' : matrix) :
  time_step solve A B u l = inr u' ->
  length u' = length u /\
  (forall r, r <> S l -> nth r u' [] = nth r u []) /\
  (forall r, length (nth r u' []) = length (nth r u [])) /\
  (forall r c, c = O \/ (length (nth r u []) <= S c)%nat ->
               entry u' r c = entry u r c) /\
  (forall r, last (nth r u' []) 0 = last (nth r u []) 0).
Proof.
  intros H. apply time_step_spec in H.
  destruct H as (sol & row' & _ & Hl & Hrow & ->).
  apply assign_interior_spec in Hrow.
  destruct Hrow as (y & _ & Hlen & _ & Hends & Hlast).
  split; [apply length_list_set|]. split; [|split; [|split]].
  - intros r Hr. apply nth_list_set_neq. congruence.
  - intros r. destruct (Nat.eq_dec r (S l)) as [->|Hr].
    + now rewrite nth_list_set_eq.
    + rewrite nth_list_set_neq by congruence. reflexivity.
  - intros r c Hc. unfold entry. destruct (Nat.eq_dec r (S l)) as [->|Hr].
    + rewrite nth_list_set_eq by exact Hl. now apply Hends.
    + rewrite nth_list_set_neq by congruence. reflexivity.
  - intros r. destruct (Nat.eq_dec r (S l)) as [->|Hr].
    + now rewrite nth_list_set_eq.
    + rewrite nth_list_set_neq by congruence. reflexivity.
Qed.

(** ** The loop *)

Lemma time_loop_app (solve : solver) (A B : matrix) (ls1 ls2 : list nat)
  (u : matrix) :
  time_loop solve A B (ls1 ++ ls2) u
  = match time_loop solve A B ls1 u with
    | Completed u1 => time_loop solve A B ls2 u1
    | Raised e ou => Raised e ou
    end.
Proof.
  revert u. induction ls1 as [|l ls1 IH]; intros u; cbn [app time_loop];
    [reflexivity|].
  destruct (time_step solve A B u l); [reflexivity | apply IH].
Qed.

(** Properties of the rows that every step preserves are preserved by any
    run of the loop, however it ends. *)
Lemma time_loop_preserves (P : matrix -> Prop) (solve : solver) (A B : matrix) :
  (forall u l u', P u -> time_step solve A B u l = inr u' -> P u') ->
  forall ls u u', P u ->
    field_of (time_loop solve A B ls u) = Some u' -> P u'.
Proof.
  intros Hstep ls. induction ls as [|l ls IH]; intros u u' HP H;
    cbn [time_loop field_of] in H.
  - injection H as <-. exact HP.
  - destruct (time_step solve A B u l) as [e|u1] eqn:Hs.
    + cbn [field_of] in H. injection H as <-. exact HP.
    + apply (IH u1); [eapply Hstep; eauto | exact H].
Qed.

(** The loop over [l = s, ..., s+k-1] writes rows [s+1, ..., s+k] only. *)
Lemma time_loop_rows (solve : solver) (A B : matrix) (k s : nat) (u u' : matrix) :
  field_of (time_loop solve A B (seq s k) u) = Some u' ->
  forall r, (r <= s)%nat \/ (s + k < r)%nat -> nth r u' [] = nth r u [].
Proof.
  revert s u. induction k as [|k IH]; intros s u H r Hr;
    cbn [seq time_loop field_of] in H.
  - now injection H as <-.
  - destruct (time_step solve A B u s) as [e|u1] eqn:Hs.
    + cbn [field_of] in H. now injection H as <-.
    + rewrite (IH (S s) u1 H) by lia.
      apply time_step_frame in Hs. apply Hs. lia.
Qed.

(** ** The state before the loop *)

Lemma inZ_eq0 (k : Z) : inZ k = 0 <-> k = 0%Z.
Proof.
  split.
  - intros H. apply Qc_eq_this in H. unfold inZ in H.
    rewrite Qc_this_Q2Qc in H. unfold Qeq in H. cbn in H. lia.
  - intros ->. apply Qc_is_canon. reflexivity.
Qed.

Lemma py_div_ok (a b : Qc) : b <> 0 -> py_div a b = inr (a / b).
Proof.
  intros Hb. unfold py_div. apply Qc_eq_bool_false in Hb. now rewrite Hb.
Qed.

Lemma list_set_repeat_last (m : nat) (v : Qc) :
  list_set m v (repeat 0 (S m)) = repeat 0 m ++ [v].
Proof. induction m as [|m IH]; [reflexivity|]. cbn [repeat list_set app] in *. now rewrite IH. Qed.

Lemma map_repeat {T U : Type} (f : T -> U) (x : T) (k : nat) :
  map f (repeat x k) = repeat (f x) k.
Proof. induction k as [|k IH]; cbn [repeat map]; [reflexivity | now rewrite IH]. Qed.

Lemma np_zeros_ok (rows cols : Z) :
  (0 <= rows)%Z -> (0 <= cols)%Z ->
  np_zeros rows cols = inr (repeat (repeat 0 (Z.to_nat cols)) (Z.to_nat rows)).
Proof.
  intros Hr Hc. unfold np_zeros.
  destruct (Z.ltb_spec rows 0), (Z.ltb_spec cols 0); try lia. reflexivity.
Qed.

Lemma set_column_first (cols : Z) (u : matrix) (v : Qc) :
  (0 < cols)%Z -> set_column cols u 0 v = inr (map (list_set 0 v) u).
Proof.
  intros Hc. unfold set_column. change (0 <? 0)%Z with false. cbv iota.
  destruct (Z.leb_spec cols 0); [lia | reflexivity].
Qed.

Lemma set_column_last (cols : Z) (u : matrix) (v : Qc) :
  (0 < cols)%Z ->
  set_column cols u (-1) v = inr (map (list_set (Z.to_nat (cols - 1)) v) u).
Proof.
  intros Hc. unfold set_column. change (-1 <? 0)%Z with true. cbv iota.
  destruct (Z.ltb_spec (-1 + cols) 0), (Z.leb_spec cols (-1 + cols)); try lia.
  cbn [orb]. now replace (-1 + cols)%Z with (cols - 1)%Z by lia.
Qed.

Lemma set_column_fail (cols : Z) (u : matrix) (j : Z) (v : Qc) :
  (cols <= 0)%Z -> (j = 0 \/ j = -1)%Z -> set_column cols u j v = inl IndexError.
Proof.
  intros Hc [-> | ->]; unfold set_column.
  - change (0 <? 0)%Z with false. cbv iota.
    destruct (Z.leb_spec cols 0); [|lia]. now rewrite orb_true_r.
  - change (-1 <? 0)%Z with true. cbv iota.
    destruct (Z.ltb_spec (-1 + cols) 0); [reflexivity | lia].
Qed.

Lemma init_field_rows (n steps : nat) (BCs : Qc * Qc) (u0 : vector) :
  length u0 = n ->
  init_field (Z.of_nat n + 2) (Z.of_nat steps + 1) BCs u0
  = inr (initial_rows n steps BCs u0).
Proof.
  intros Hu0. unfold init_field.
  rewrite np_zeros_ok by lia. cbn [bind].
  rewrite set_column_first by lia. cbn [bind].
  rewrite set_column_last by lia. cbn [bind].
  replace (Z.to_nat (Z.of_nat n + 2)) with (S (S n)) by lia.
  replace (Z.to_nat (Z.of_nat steps + 1)) with (S steps) by lia.
  replace (Z.to_nat (Z.of_nat n + 2 - 1)) with (S n) by lia.
  rewrite !map_repeat.
  change (list_set 0 (fst BCs) (repeat 0 (S (S n))))
    with (fst BCs :: repeat 0 (S n)).
  change (list_set (S n) (snd BCs) (fst BCs :: repeat 0 (S n)))
    with (fst BCs :: list_set n (snd BCs) (repeat 0 (S n))).
  rewrite list_set_repeat_last. fold (zeros n).
  set (row := fst BCs :: zeros n ++ [snd BCs]).
  assert (Hrow : (length row - 2)%nat = n).
  { unfold row, zeros. cbn [length]. rewrite length_app, repeat_length.
    cbn [length]. lia. }
  unfold set_row_interior. cbn [repeat length Nat.ltb Nat.leb nth].
  unfold assign_interior. rewrite Hrow, <- Hu0, slice_fill_exact.
  cbn [bind list_set]. unfold initial_rows. rewrite Hu0. do 3 f_equal.
  unfold row. cbn [firstn skipn app]. do 2 f_equal.
  unfold zeros. rewrite <- (repeat_length 0 n) at 1.
  rewrite skipn_app, skipn_all, Nat.sub_diag. reflexivity.
Qed.

Lemma Qc_inv_neq0 (a : Qc) : a <> 0 -> 1 / a <> 0.
Proof.
  intros Ha E. apply Ha.
  assert (H : a = a * a * (1 / a)) by (field; exact Ha).
  rewrite H, E. ring.
Qed.

Lemma dx_ok (nx : Z) : nx <> 1%Z -> dx nx = inr (dx_val nx).
Proof. intros H. apply py_div_ok. rewrite inZ_eq0. lia. Qed.

Lemma dt_ok (nt : Z) : nt <> 1%Z -> dt nt = inr (dt_val nt).
Proof. intros H. apply py_div_ok. rewrite inZ_eq0. lia. Qed.

Lemma dx_fail : dx 1 = inl ZeroDivisionError.
Proof. reflexivity. Qed.

Lemma dt_fail : dt 1 = inl ZeroDivisionError.
Proof. reflexivity. Qed.

Lemma dx_val_neq0 (nx : Z) : nx <> 1%Z -> dx_val nx <> 0.
Proof. intros H. apply Qc_inv_neq0. rewrite inZ_eq0. lia. Qed.

Lemma lbd_ok (D : Qc) (nx nt : Z) :
  nx <> 1%Z -> nt <> 1%Z -> lbd D nx nt = inr (lbd_val D nx nt).
Proof.
  intros Hx Ht. unfold lbd. rewrite dx_ok, dt_ok by assumption. cbn [bind].
  apply py_div_ok. intros E. apply Qcmult_integral in E.
  destruct E as [E|E]; now apply (dx_val_neq0 Hx).
Qed.

Lemma lbd_inv (D : Qc) (nx nt : Z) (lam : Qc) :
  lbd D nx nt = inr lam ->
  nx <> 1%Z /\ nt <> 1%Z /\ lam = lbd_val D nx nt.
Proof.
  intros H. destruct (Z.eq_dec nx 1) as [->|Hx].
  { unfold lbd in H. rewrite dx_fail in H. discriminate. }
  destruct (Z.eq_dec nt 1) as [->|Ht].
  { unfold lbd in H. rewrite dx_ok, dt_fail in H by assumption. discriminate. }
  rewrite lbd_ok in H by assumption. injection H as <-. auto.
Qed.

Lemma linspace_inv (a b : Qc) (num : Z) (v : vector) :
  np_linspace a b num = inr v -> (0 <= num)%Z /\ length v = Z.to_nat num.
Proof.
  unfold np_linspace. destruct (Z.ltb_spec num 0); [discriminate|].
  intros [= <-]. split; [assumption|]. now rewrite length_map, length_seq.
Qed.

Lemma init_field_fail_cols (nt : Z) (BCs : Qc * Qc) (u0 : vector) :
  (0 <= nt)%Z -> init_field 0 nt BCs u0 = inl IndexError.
Proof.
  intros Ht. unfold init_field. rewrite np_zeros_ok by lia. cbn [bind].
  rewrite set_column_fail by (lia || auto). reflexivity.
Qed.

Lemma init_field_fail_rows (nx : Z) (BCs : Qc * Qc) (u0 : vector) :
  (2 <= nx)%Z -> init_field nx 0 BCs u0 = inl IndexError.
Proof.
  intros Hx. unfold init_field. rewrite np_zeros_ok by lia. cbn [bind].
  rewrite set_column_first by lia. cbn [bind].
  rewrite set_column_last by lia. reflexivity.
Qed.

(** Whether the statements before the loop raise, which exception, and the
    two matrices do not depend on the boundary values; the field is
    [initial_rows]. *)
Lemma setup_cases (nx nt : Z) (D : Qc) (init : Qc -> Qc) :
  (exists e, forall BCs, setup nx nt D BCs init = inl e) \/
  (exists n steps A B u0,
      nx = (Z.of_nat n + 2)%Z /\ nt = (Z.of_nat (S steps) + 1)%Z /\
      length u0 = n /\
      lbd D nx nt = inr (lbd_val D nx nt) /\
      build_A (lbd_val D nx nt) nx = inr A /\
      build_B (lbd_val D nx nt) nx = inr B /\
      forall BCs,
        setup nx nt D BCs init = inr (A, B, initial_rows n (S steps) BCs u0)).
Proof.
  unfold setup.
  destruct (J nx) as [e|Jv] eqn:HJ; [left; exists e; reflexivity|].
  destruct (L nt) as [e|Lv] eqn:HL; [left; exists e; reflexivity|].
  destruct (lbd D nx nt) as [e|lam] eqn:Hlam; [left; exists e; reflexivity|].
  cbn [bind]. apply linspace_inv in HJ, HL.
  destruct HJ as [Hx HJ], HL as [Ht _].
  destruct (lbd_inv _ _ _ Hlam) as (Hx1 & Ht1 & ->).
  destruct (Z.eq_dec nx 0) as [->|Hx0].
  { left. exists IndexError. intros BCs.
    now rewrite init_field_fail_cols by exact Ht. }
  destruct (Z.eq_dec nt 0) as [->|Ht0].
  { left. exists IndexError. intros BCs.
    now rewrite init_field_fail_rows by lia. }
  set (n := Z.to_nat (nx - 2)). set (steps := Z.to_nat (nt - 2)).
  assert (Enx : nx = (Z.of_nat n + 2)%Z) by lia.
  assert (Ent : nt = (Z.of_nat (S steps) + 1)%Z) by lia.
  assert (Hu0 : length (map init (interior Jv)) = n).
  { rewrite length_map, length_interior, HJ. lia. }
  destruct (build_A (lbd_val D nx nt) nx) as [e|A] eqn:HA.
  { left. exists e. intros BCs. rewrite Enx at 1. rewrite Ent at 1.
    now rewrite init_field_rows by exact Hu0. }
  destruct (build_B (lbd_val D nx nt) nx) as [e|B] eqn:HB.
  { left. exists e. intros BCs. rewrite Enx at 1. rewrite Ent at 1.
    now rewrite init_field_rows by exact Hu0. }
  right. exists n, steps, A, B, (map init (interior Jv)).
  repeat split; try assumption.
  intros BCs. rewrite Enx at 1. rewrite Ent at 1.
  now rewrite init_field_rows by exact Hu0.
Qed.

(** ** Properties of the coefficient matrices *)

Lemma is_tridiagonal_mat_of (n : nat) (d o : Qc) :
  is_tridiagonal n d o (mat_of n (tri d o)).
Proof.
  split; [apply square_mat_of|]. split; [|split].
  - intros i Hi. rewrite entry_mat_of by assumption.
    unfold tri. now rewrite Nat.eqb_refl.
  - intros i Hi. rewrite !entry_mat_of by lia. unfold tri.
    destruct (Nat.eqb_spec (S i) i); [lia|].
    destruct (Nat.eqb_spec i (S i)); [lia|].
    rewrite !Nat.eqb_refl. cbn [orb]. rewrite orb_true_r. split; reflexivity.
  - intros i j Hi Hj H1 H2 H3. rewrite entry_mat_of by assumption. unfold tri.
    destruct (Nat.eqb_spec j i); [contradiction|].
    destruct (Nat.eqb_spec j (S i)); [contradiction|].
    destruct (Nat.eqb_spec i (S j)); [contradiction|]. reflexivity.
Qed.





(** ** The grid arrays *)

Lemma inZ_0 : inZ 0 = 0.
Proof. apply Qc_is_canon. reflexivity. Qed.

Lemma inZ_1 : inZ 1 = 1.
Proof. apply Qc_is_canon. reflexivity. Qed.

Lemma last_map_seq {T : Type} (f : nat -> T) (k : nat) (d : T) :
  last (map f (seq 0 (S k))) d = f k.
Proof. rewrite seq_S, map_app. cbn [map Nat.add]. apply last_last. Qed.

(** [np.linspace(a, b, num)] starts at [a] and, for [num >= 2], ends at
    [b]. *)
Lemma linspace_ends (a b : Qc) (num : Z) :
  (2 <= num)%Z ->
  exists v, np_linspace a b num = inr v /\ hd 0 v = a /\ last v 0 = b.
Proof.
  intros Hnum. unfold np_linspace. destruct (Z.ltb_spec num 0); [lia|].
  eexists. split; [reflexivity|].
  replace (Z.to_nat num) with (S (Z.to_nat (num - 1))) by lia.
  split.
  - cbn [seq map hd]. change (Z.of_nat 0) with 0%Z. rewrite inZ_0. ring.
  - rewrite last_map_seq. replace (Z.of_nat (Z.to_nat (num - 1))) with (num - 1)%Z by lia.
    field. rewrite inZ_eq0. lia.
Qed.

(** ** Runs of the loop with a solver that does not fail *)

Section LoopRuns.

Variable solve : solver.
Variables A B : matrix.
Variable n rows : nat.
Hypothesis solve_total : total_on solve A n.
Hypothesis B_rows : length B = n.

Lemma time_step_ok (u : matrix) (l : nat) :
  field_shape rows (S (S n)) u -> (S l < rows)%nat ->
  exists sol u',
    solve A (mat_vec B (interior (nth l u []))) = Some sol /\
    time_step solve A B u l = inr u' /\
    field_shape rows (S (S n)) u' /\
    interior (nth (S l) u' []) = sol.
Proof.
  intros [Hrows Hcols] Hl.
  destruct (solve_total (mat_vec B (interior (nth l u []))))
    as (sol & Hsol & Hlen); [unfold mat_vec; now rewrite length_map|].
  assert (Hfill : slice_fill n sol = inr sol)
    by (rewrite <- Hlen; apply slice_fill_exact).
  assert (Hn : (S (S n) - 2)%nat = n) by lia.
  destruct (@rebuild_row (nth (S l) u []) sol) as (Hl' & Hint & _);
    [rewrite (Hcols (S l) Hl); lia|].
  rewrite (Hcols (S l) Hl), Hn in Hl', Hint.
  exists sol,
    (list_set (S l)
       (firstn 1 (nth (S l) u []) ++ sol ++ skipn (S n) (nth (S l) u [])) u).
  split; [exact Hsol|]. split; [|split].
  - unfold time_step. rewrite Hsol. unfold set_row_interior.
    destruct (Nat.ltb_spec (S l) (length u)); [|lia].
    unfold assign_interior. rewrite (Hcols (S l) Hl), Hn, Hfill. reflexivity.
  - split; [now rewrite length_list_set|]. intros r Hr.
    destruct (Nat.eq_dec r (S l)) as [->|Hne].
    + rewrite nth_list_set_eq by lia. exact Hl'.
    + rewrite nth_list_set_neq by congruence. now apply Hcols.
  - rewrite nth_list_set_eq by lia. exact Hint.
Qed.

Lemma time_loop_ok (k s : nat) (u : matrix) :
  field_shape rows (S (S n)) u -> (s + k < rows)%nat ->
  exists u',
    time_loop solve A B (seq s k) u = Completed u' /\
    field_shape rows (S (S n)) u' /\
    forall l, (s <= l < s + k)%nat ->
      solve A (mat_vec B (interior (nth l u' [])))
      = Some (interior (nth (S l) u' [])).
Proof.
  revert s u. induction k as [|k IH]; intros s u Hu Hk.
  - exists u. split; [reflexivity|]. split; [exact Hu|]. intros l Hl. lia.
  - destruct (@time_step_ok u s Hu) as (sol & u1 & Hsol & Hstep & Hu1 & Hint);
      [lia|].
    destruct (IH (S s) u1 Hu1) as (u' & Hrun & Hu' & Hrel); [lia|].
    exists u'. cbn [seq time_loop]. rewrite Hstep.
    split; [exact Hrun|]. split; [exact Hu'|]. intros l Hl.
    destruct (Nat.eq_dec l s) as [->|Hne]; [|apply Hrel; lia].
    assert (Hf : field_of (time_loop solve A B (seq (S s) k) u1) = Some u')
      by now rewrite Hrun.
    rewrite !(@time_loop_rows solve A B k (S s) u1 u' Hf) by lia.
    apply time_step_frame in Hstep. destruct Hstep as (_ & Hothers & _).
    rewrite (Hothers s) by lia. now rewrite Hint.
Qed.

End LoopRuns.

(** ** The solver on the implicit system *)





Lemma contract_total (solve : solver) (n : nat) (A : matrix) :
  solver_contract solve -> square n A ->
  (forall y, length y = n -> mat_vec A y = zeros n -> y = zeros n) ->
  total_on solve A n.
Proof.
  intros [Hsound Hcomplete] HA Hinj b Hb.
  destruct (solve A b) as [x|] eqn:Hs.
  - exists x. split; [reflexivity|].
    now destruct (Hsound n A b x HA Hb Hs).
  - destruct (Hcomplete n A b HA Hb Hs) as (y & Hy & Hnz & Hk).
    exfalso. apply Hnz. now apply Hinj.
Qed.

Lemma implicit_total (solve : solver) (lam : Qc) (n : nat) :
  solver_contract solve -> 0 < lam ->
  total_on solve (mat_of n (tri (two * (1 + lam)) (- lam))) n.
Proof.
  intros Hc Hlam. apply contract_total; [exact Hc | apply square_mat_of|].
  intros y Hy. now apply tri_implicit_injective.
Qed.

(** ** The whole cell on a valid grid *)

Lemma Qc_inv_pos (a : Qc) : 0 < a -> 0 < / a.
Proof.
  unfold Qclt. intros H. change (this (/ a)) with (Qred (/ this a)).
  rewrite Qred_correct. now apply Qinv_lt_0_compat.
Qed.

Lemma Qc_mult_pos (a b : Qc) : 0 < a -> 0 < b -> 0 < a * b.
Proof. qc_nra. Qed.

Lemma inZ_pos (k : Z) : (0 < k)%Z -> 0 < inZ k.
Proof.
  intros H. unfold Qclt, inZ. rewrite !Qc_this_Q2Qc.
  unfold Qlt. cbn. lia.
Qed.

Lemma lbd_val_pos (D : Qc) (nx nt : Z) :
  0 < D -> (2 <= nx)%Z -> (2 <= nt)%Z -> 0 < lbd_val D nx nt.
Proof.
  intros HD Hx Ht. unfold lbd_val, dx_val, dt_val, Qcdiv.
  assert (Hx' : 0 < / inZ (nx - 1)) by (apply Qc_inv_pos, inZ_pos; lia).
  assert (Ht' : 0 < / inZ (nt - 1)) by (apply Qc_inv_pos, inZ_pos; lia).
  assert (H1 : 0 < 1) by reflexivity.
  repeat first [assumption | apply Qc_mult_pos | apply Qc_inv_pos].
Qed.



(** ** Boundary positions *)

Lemma bounded_by_step (solve : solver) (A B : matrix) (left right : Qc)
  (rows : nat) (u : matrix) (l : nat) (u' : matrix) :
  bounded_by left right rows u -> time_step solve A B u l = inr u' ->
  bounded_by left right rows u'.
Proof.
  intros [Hlen Hb] Hstep. apply time_step_frame in Hstep.
  destruct Hstep as (Hlen' & _ & _ & Hends & Hlast).
  split; [congruence|]. intros r Hr.
  rewrite Hends by auto. rewrite Hlast. now apply Hb.
Qed.

Lemma bounded_by_initial_rows (n steps : nat) (BCs : Qc * Qc) (u0 : vector) :
  bounded_by (fst BCs) (snd BCs) (S steps) (initial_rows n steps BCs u0).
Proof.
  split; [unfold initial_rows; cbn [length]; now rewrite repeat_length|].
  intros r Hr. unfold entry, initial_rows. destruct r as [|r]; cbn [nth].
  - split; [reflexivity|]. rewrite app_comm_cons. apply last_last.
  - rewrite nth_repeat_lt by lia. cbn [nth].
    split; [reflexivity|]. rewrite app_comm_cons. apply last_last.
Qed.

(** ** Interior values and boundary values *)

Lemma same_interiors_step (solve : solver) (A B u1 u2 : matrix) (l : nat) :
  same_interiors u1 u2 ->
  match time_step solve A B u1 l, time_step solve A B u2 l with
  | inl e1, inl e2 => e1 = e2
  | inr u1', inr u2' => same_interiors u1' u2'
  | _, _ => False
  end.
Proof.
  intros [Hint Hlen].
  assert (Hrow : forall r, interior (nth r u1 []) = interior (nth r u2 [])).
  { intros r. change [] with (interior []) at 1 2.
    rewrite <- !(map_nth interior). fold (interiors u1) (interiors u2).
    now rewrite Hint. }
  assert (Hlr : forall r, length (nth r u1 []) = length (nth r u2 [])).
  { intros r. rewrite <- !(map_nth (@length Qc)). cbn [length].
    now rewrite Hlen. }
  assert (Hl : length u1 = length u2).
  { pose proof (f_equal (@length nat) Hlen) as Hl.
    now rewrite !length_map in Hl. }
  unfold time_step. rewrite <- Hrow.
  destruct (solve A (mat_vec B (interior (nth l u1 [])))) as [sol|];
    [|reflexivity].
  unfold set_row_interior. rewrite <- Hl.
  destruct (S l <? length u1)%nat; [|reflexivity].
  unfold assign_interior. rewrite <- (Hlr (S l)).
  destruct (slice_fill (length (nth (S l) u1 []) - 2) sol) as [e|y] eqn:Hy;
    cbn [bind]; [reflexivity|].
  apply length_slice_fill in Hy.
  destruct (@rebuild_row (nth (S l) u1 []) y Hy) as (L1 & I1 & _).
  destruct (@rebuild_row (nth (S l) u2 []) y) as (L2 & I2 & _);
    [now rewrite <- Hlr|].
  rewrite <- (Hlr (S l)) in L2, I2.
  split.
  - unfold interiors. rewrite !map_list_set, I1, I2.
    fold (interiors u1) (interiors u2). now rewrite Hint.
  - rewrite !map_list_set, L1, L2. now rewrite Hlen.
Qed.

Lemma same_interiors_loop (solve : solver) (A B : matrix) (ls : list nat)
  (u1 u2 : matrix) :
  same_interiors u1 u2 ->
  observe_interiors (time_loop solve A B ls u1)
  = observe_interiors (time_loop solve A B ls u2).
Proof.
  revert u1 u2. induction ls as [|l ls IH]; intros u1 u2 H;
    cbn [time_loop observe_interiors].
  - f_equal. apply H.
  - pose proof (@same_interiors_step solve A B u1 u2 l H) as Hs.
    destruct (time_step solve A B u1 l) as [e1|u1'],
             (time_step solve A B u2 l) as [e2|u2']; try contradiction.
    + cbn [observe_interiors option_map]. subst e2. f_equal. f_equal. apply H.
    + now apply IH.
Qed.

Lemma same_interiors_initial_rows (n steps : nat) (BCs BCs' : Qc * Qc)
  (u0 : vector) :
  same_interiors (initial_rows n steps BCs u0) (initial_rows n steps BCs' u0).
Proof.
  assert (Hi : forall a z (x : vector), interior (a :: x ++ [z]) = x)
    by (intros; unfold interior; cbn [tl]; apply removelast_last).
  unfold same_interiors, interiors, initial_rows. cbn [map].
  rewrite !map_repeat, !Hi. cbn [length]. rewrite !length_app. cbn [length].
  split; reflexivity.
Qed.

Lemma heat_equation_bounded (solve : solver) (nx nt : Z) (D : Qc)
  (BCs : Qc * Qc) (init : Qc -> Qc) (u' : matrix) :
  field_of (heat_equation solve nx nt D BCs init) = Some u' ->
  bounded_by (fst BCs) (snd BCs) (Z.to_nat nt) u'.
Proof.
  intros H. unfold heat_equation in H.
  destruct (setup_cases nx nt D init) as [[e He] | Hok].
  - rewrite He in H. discriminate.
  - destruct Hok as (n & steps & A & B & u0 & Enx & Ent & _ & _ & _ & _ & Hs).
    rewrite Hs in H.
    replace (Z.to_nat nt) with (S (S steps)) by lia.
    exact (@time_loop_preserves
             (bounded_by (fst BCs) (snd BCs) (S (S steps))) solve A B
             (fun u l u1 => @bounded_by_step solve A B _ _ _ u l u1)
             _ _ u' (bounded_by_initial_rows n (S steps) BCs u0) H).
Qed.

(** ** The zero field *)



(** ** Runs on any grid *)

Lemma linspace_ok (a b : Qc) (num : Z) :
  (0 <= num)%Z ->
  exists v, np_linspace a b num = inr v /\ length v = Z.to_nat num.
Proof.
  intros H. unfold np_linspace. destruct (Z.ltb_spec num 0); [lia|].
  eexists. split; [reflexivity|]. now rewrite length_map, length_seq.
Qed.

Lemma linspace_negative (a b : Qc) (num : Z) :
  (num < 0)%Z -> np_linspace a b num = inl ValueError.
Proof.
  intros H. unfold np_linspace. destruct (Z.ltb_spec num 0); [reflexivity|lia].
Qed.

Lemma build_A_empty (lam : Qc) : build_A lam 2 = inr [].
Proof. reflexivity. Qed.

Lemma build_B_empty (lam : Qc) : build_B lam 2 = inr [].
Proof. reflexivity. Qed.

Lemma build_A_any (lam : Qc) (nx : Z) :
  (2 <= nx)%Z ->
  build_A lam nx
  = inr (mat_of (Z.to_nat (nx - 2)) (tri (two * (1 + lam)) (- lam))).
Proof.
  intros H. destruct (Z.eq_dec nx 2) as [->|Hne]; [apply build_A_empty|].
  replace nx with (Z.of_nat (Z.to_nat (nx - 2)) + 2)%Z at 1 by lia.
  apply build_A_tri. lia.
Qed.

Lemma build_B_any (lam : Qc) (nx : Z) :
  (2 <= nx)%Z ->
  build_B lam nx
  = inr (mat_of (Z.to_nat (nx - 2)) (tri (two * (1 - lam)) lam)).
Proof.
  intros H. destruct (Z.eq_dec nx 2) as [->|Hne]; [apply build_B_empty|].
  replace nx with (Z.of_nat (Z.to_nat (nx - 2)) + 2)%Z at 1 by lia.
  apply build_B_tri. lia.
Qed.

Lemma length_initial_values (nx : Z) (init : Qc -> Qc) :
  length (initial_values nx init) = Z.to_nat (nx - 2).
Proof.
  unfold initial_values. destruct (J nx) as [e|Jv] eqn:HJ.
  - unfold J, np_linspace in HJ. destruct (Z.ltb_spec nx 0);
      [cbn [length]; lia | discriminate].
  - apply linspace_inv in HJ. destruct HJ as [_ HJ].
    rewrite length_map, length_interior, HJ. lia.
Qed.

(** The state the loop starts from, for every grid with at least two
    points in space and in time. *)
Lemma setup_any (nx nt : Z) (D : Qc) (BCs : Qc * Qc) (init : Qc -> Qc) :
  (2 <= nx)%Z -> (2 <= nt)%Z ->
  let n := Z.to_nat (nx - 2) in
  let lam := lbd_val D nx nt in
  setup nx nt D BCs init
  = inr (mat_of n (tri (two * (1 + lam)) (- lam)),
         mat_of n (tri (two * (1 - lam)) lam),
         initial_rows n (Z.to_nat (nt - 1)) BCs (initial_values nx init)).
Proof.
  intros Hx Ht n lam.
  pose proof (length_initial_values nx init) as Hu0. fold n in Hu0.
  unfold setup, initial_values in *.
  destruct (linspace_ok 0 1 (num := nx)) as (Jv & HJ & _); [lia|].
  destruct (linspace_ok 0 (inZ 10) (num := nt)) as (Lv & HL & _); [lia|].
  unfold J, L in *. rewrite HJ in *. rewrite HL. cbn [bind].
  rewrite lbd_ok by lia. cbn [bind]. fold lam. cbv zeta.
  assert (Enx : nx = (Z.of_nat n + 2)%Z) by lia.
  assert (Ent : nt = (Z.of_nat (Z.to_nat (nt - 1)) + 1)%Z) by lia.
  replace (init_field nx nt BCs (map init (interior Jv)))
    with (init_field (Z.of_nat n + 2) (Z.of_nat (Z.to_nat (nt - 1)) + 1) BCs
            (map init (interior Jv))) by (f_equal; lia).
  rewrite init_field_rows by exact Hu0. cbn [bind].
  rewrite build_A_any, build_B_any by lia. reflexivity.
Qed.

Lemma field_shape_step (solve : solver) (A B : matrix) (rows cols : nat)
  (u : matrix) (l : nat) (u' : matrix) :
  field_shape rows cols u -> time_step solve A B u l = inr u' ->
  field_shape rows cols u'.
Proof.
  intros [Hlen Hcols] Hstep. apply time_step_frame in Hstep.
  destruct Hstep as (Hlen' & _ & Hrow & _).
  split; [congruence|]. intros r Hr. rewrite Hrow. now apply Hcols.
Qed.

Lemma field_shape_initial_rows (n steps : nat) (BCs : Qc * Qc) (u0 : vector) :
  length u0 = n ->
  field_shape (S steps) (S (S n)) (initial_rows n steps BCs u0).
Proof.
  intros Hu0.
  split; [unfold initial_rows; cbn [length]; now rewrite repeat_length|].
  intros r Hr. unfold initial_rows. destruct r as [|r]; cbn [nth].
  - cbn [length]. rewrite length_app, Hu0. cbn [length]. lia.
  - rewrite nth_repeat_lt by lia. cbn [length].
    rewrite length_app. unfold zeros. rewrite repeat_length. cbn [length]. lia.
Qed.

Lemma setup_grid (nx nt : Z) (D : Qc) (BCs : Qc * Qc) (init : Qc -> Qc)
  (A B u : matrix) :
  setup nx nt D BCs init = inr (A, B, u) -> (2 <= nx)%Z /\ (2 <= nt)%Z.
Proof.
  intros H. destruct (setup_cases nx nt D init) as [[e He] | Hok].
  - rewrite He in H. discriminate.
  - destruct Hok as (n & steps & _ & _ & _ & Enx & Ent & _). lia.
Qed.

Lemma heat_equation_field_grid (solve : solver) (nx nt : Z) (D : Qc)
  (BCs : Qc * Qc) (init : Qc -> Qc) (u' : matrix) :
  field_of (heat_equation solve nx nt D BCs init) = Some u' ->
  (2 <= nx)%Z /\ (2 <= nt)%Z.
Proof.
  unfold heat_equation.
  destruct (setup nx nt D BCs init) as [e|[[A B] u]] eqn:Hs; [discriminate|].
  intros _. eapply setup_grid. exact Hs.
Qed.

(** What a run with a solver that does not fail leaves: rows made of the
    two boundary values around an interior of [nx - 2] values, the initial
    values in row 0, and in row [l + 1] a solution of the system of step
    [l]. *)
Lemma run_rows (solve : solver) (nx nt : Z) (D : Qc) (BCs : Qc * Qc)
  (init : Qc -> Qc) :
  let n := Z.to_nat (nx - 2) in
  let steps := Z.to_nat (nt - 1) in
  let lam := lbd_val D nx nt in
  let A := mat_of n (tri (two * (1 + lam)) (- lam)) in
  let B := mat_of n (tri (two * (1 - lam)) lam) in
  (2 <= nx)%Z -> (2 <= nt)%Z ->
  solver_sound solve -> total_on solve A n ->
  exists u',
    heat_equation solve nx nt D BCs init = Completed u' /\
    length u' = S steps /\
    (forall r, (r <= steps)%nat ->
       length (interior (nth r u' [])) = n /\
       nth r u' [] = fst BCs :: interior (nth r u' []) ++ [snd BCs]) /\
    interior (nth 0 u' []) = initial_values nx init /\
    forall l, (l < steps)%nat ->
      mat_vec A (interior (nth (S l) u' []))
      = mat_vec B (interior (nth l u' [])).
Proof.
  intros n steps lam A B Hx Ht Hsound Htotal.
  assert (Hrun0 : heat_equation solve nx nt D BCs init
                  = time_loop solve A B (seq 0 steps)
                      (initial_rows n steps BCs (initial_values nx init))).
  { unfold heat_equation. rewrite setup_any by assumption. reflexivity. }
  destruct (@time_loop_ok solve A B n (S steps) Htotal (length_mat_of n _)
              steps 0%nat _
              (@field_shape_initial_rows n steps BCs _
                 (length_initial_values nx init)))
    as (u' & Hrun & [Hrows Hcols] & Hrel); [lia|].
  rewrite <- Hrun0 in Hrun.
  assert (Hf : field_of (heat_equation solve nx nt D BCs init) = Some u')
    by now rewrite Hrun.
  destruct (heat_equation_bounded _ _ _ _ _ _ Hf) as [_ Hb].
  exists u'. split; [exact Hrun|]. split; [exact Hrows|]. split; [|split].
  - intros r Hr.
    assert (Hlen : length (nth r u' []) = S (S n)) by (apply Hcols; lia).
    split; [rewrite length_interior, Hlen; lia|].
    destruct (Hb r) as [Hfirst Hlast]; [unfold steps in Hr; lia|].
    rewrite (@row_split (nth r u' [])) at 1 by lia.
    rewrite Hlast. f_equal. rewrite <- Hfirst. unfold entry.
    destruct (nth r u' []); [discriminate Hlen | reflexivity].
  - rewrite Hrun0 in Hf.
    rewrite (@time_loop_rows solve A B steps 0 _ u' Hf) by lia.
    unfold initial_rows, interior. cbn [nth tl]. apply removelast_last.
  - intros l Hl. specialize (Hrel l ltac:(lia)).
    assert (Hv : length (mat_vec B (interior (nth l u' []))) = n)
      by (unfold mat_vec; rewrite length_map; apply length_mat_of).
    now destruct (Hsound n _ _ _ (square_mat_of n _) Hv Hrel).
Qed.

(** Two fields with the same rows are equal. *)
Lemma field_ext (rows : nat) (u1 u2 : matrix) :
  length u1 = rows -> length u2 = rows ->
  (forall r, (r < rows)%nat -> nth r u1 [] = nth r u2 []) -> u1 = u2.
Proof.
  intros H1 H2 H. apply (nth_ext _ _ [] []); [exact (eq_trans H1 (eq_sym H2))|].
  intros r Hr. apply H. now rewrite <- H1.
Qed.

Lemma linspace_nth (a b : Qc) (num : Z) (v : vector) (i : nat) :
  np_linspace a b num = inr v -> (i < Z.to_nat num)%nat ->
  nth i v 0 = a + inZ (Z.of_nat i) * ((b - a) / inZ (num - 1)).
Proof.
  unfold np_linspace. destruct (Z.ltb_spec num 0); [discriminate|].
  intros [= <-] Hi. now rewrite nth_map_seq.
Qed.

Lemma py_div_inv (a b q : Qc) : py_div a b = inr q -> b <> 0 /\ q = a / b.
Proof.
  unfold py_div. destruct (Qc_eq_bool b 0) eqn:E; [discriminate|].
  intros [= <-]. split; [|reflexivity].
  intros Hb. rewrite Hb, Qc_eq_bool_refl in E. discriminate.
Qed.

Lemma nth_interior (row : vector) (i : nat) (d : Qc) :
  (S (S i) < length row)%nat -> nth i (interior row) d = nth (S i) row d.
Proof.
  intros Hi.
  transitivity (nth (S i) (hd 0 row :: interior row ++ [last row 0]) d);
    [|now rewrite <- row_split by lia].
  cbn [nth]. rewrite app_nth1 by (rewrite length_interior; lia). reflexivity.
Qed.

Lemma initial_values_nth (nx : Z) (init : Qc -> Qc) (i : nat) :
  (i < Z.to_nat (nx - 2))%nat ->
  nth i (initial_values nx init) 0 = init (inZ (Z.of_nat (S i)) * dx_val nx).
Proof.
  intros Hi. unfold initial_values.
  destruct (@linspace_ok 0 1 nx) as (Jv & HJ & Hlen); [lia|].
  unfold J. rewrite HJ.
  rewrite (nth_indep _ 0 (init 0))
    by (rewrite length_map, length_interior, Hlen; lia).
  rewrite map_nth. f_equal.
  rewrite nth_interior by (rewrite Hlen; lia).
  rewrite (@linspace_nth 0 1 nx Jv (S i) HJ) by lia.
  unfold dx_val. field. rewrite inZ_eq0. lia.
Qed.

Lemma field_first_row (solve : solver) (nx nt : Z) (D : Qc)
  (BCs : Qc * Qc) (init : Qc -> Qc) (u' : matrix) :
  field_of (heat_equation solve nx nt D BCs init) = Some u' ->
  nth 0 u' [] = fst BCs :: initial_values nx init ++ [snd BCs].
Proof.
  intros H. destruct (heat_equation_field_grid _ _ _ _ _ _ H) as [Hx Ht].
  unfold heat_equation in H. rewrite setup_any in H by assumption.
  unfold py_range in H.
  rewrite (@time_loop_rows solve _ _ (Z.to_nat (nt - 1)) 0 _ u' H) by lia.
  reflexivity.
Qed.

(** A step, row by row: row [i] of [A x] is row [i] of [B v]. *)
Lemma step_rows (lam : Qc) (n : nat) (x v : vector) :
  length x = n -> length v = n ->
  mat_vec (mat_of n (tri (two * (1 + lam)) (- lam))) x
  = mat_vec (mat_of n (tri (two * (1 - lam)) lam)) v ->
  forall i, (i < n)%nat ->
    tri_row (two * (1 + lam)) (- lam) x i = tri_row (two * (1 - lam)) lam v i.
Proof.
  intros Hx Hv E i Hi. rewrite !mat_vec_tri in E by assumption.
  rewrite <- (@nth_map_seq Qc (tri_row (two * (1 + lam)) (- lam) x) n i 0 Hi).
  rewrite E. now apply nth_map_seq.
Qed.

Lemma entry_interior (row : vector) (a b : Qc) (n i : nat) :
  length (interior row) = n -> row = a :: interior row ++ [b] ->
  (i < n)%nat -> nth (S i) row 0 = nth i (interior row) 0.
Proof.
  intros Hl E Hi.
  transitivity (nth (S i) (a :: interior row ++ [b]) 0); [now rewrite <- E|].
  cbn [nth]. apply app_nth1. lia.
Qed.

(** ** Integers among the rationals *)




(** Two arrays of canonical rationals with the same fractions are equal. *)
Lemma vector_by_this (x y : vector) : map this x = map this y -> x = y.
Proof.
  revert y. induction x as [|a x IH]; intros [|b y] H; cbn [map] in H;
    try discriminate; [reflexivity|].
  injection H as Hab Hxy. f_equal; [|now apply IH].
  apply Qc_is_canon. now rewrite Hab.
Qed.

Lemma matrix_by_this (M N : matrix) :
  map (map this) M = map (map this) N -> M = N.
Proof.
  revert N. induction M as [|r M IH]; intros [|r' N] H; cbn [map] in H;
    try discriminate; [reflexivity|].
  injection H as Hr HM. f_equal; [now apply vector_by_this | now apply IH].
Qed.

(** ** Binary64 numbers *)




(** ** The steps of a run that completes *)


(** ** Gaussian elimination fails by the matrix *)

Lemma find_pivot_by_matrix (eqs eqs' : list Gauss.equation) :
  map fst eqs = map fst eqs' ->
  match Gauss.find_pivot eqs, Gauss.find_pivot eqs' with
  | None, None => True
  | Some (p, rest), Some (p', rest') =>
      fst p = fst p' /\ map fst rest = map fst rest'
  | _, _ => False
  end.
Proof.
  revert eqs'. induction eqs as [|e eqs IH]; intros [|e' eqs'] H;
    cbn [map] in H; try discriminate; [exact I|].
  injection H as He Hrest. cbn [Gauss.find_pivot]. rewrite <- He.
  destruct (Qc_eq_bool (hd 0 (fst e)) 0).
  - specialize (IH eqs' Hrest).
    destruct (Gauss.find_pivot eqs) as [[p rest]|],
             (Gauss.find_pivot eqs') as [[p' rest']|]; try contradiction;
      [|exact I].
    destruct IH as [Hp Hr]. split; [exact Hp|]. cbn [map]. now rewrite He, Hr.
  - split; [exact He | exact Hrest].
Qed.

Lemma map_through_fst {T : Type} (g : vector -> T)
  (l l' : list Gauss.equation) :
  map fst l = map fst l' ->
  map (fun e => g (fst e)) l = map (fun e => g (fst e)) l'.
Proof.
  intros H. rewrite <- (map_map fst g l), <- (map_map fst g l').
  now rewrite H.
Qed.

Lemma elim_by_matrix (n : nat) (eqs eqs' : list Gauss.equation) :
  map fst eqs = map fst eqs' ->
  Gauss.elim n eqs = None -> Gauss.elim n eqs' = None.
Proof.
  revert eqs eqs'. induction n as [|m IH]; intros eqs eqs' H;
    cbn [Gauss.elim]; [discriminate|].
  pose proof (find_pivot_by_matrix eqs eqs' H) as Hp.
  destruct (Gauss.find_pivot eqs) as [[p rest]|],
           (Gauss.find_pivot eqs') as [[p' rest']|]; try contradiction;
    [|reflexivity].
  destruct Hp as [Hp Hr].
  assert (Hm : map fst (map (Gauss.eliminate p) rest)
               = map fst (map (Gauss.eliminate p') rest')).
  { rewrite !map_map. unfold Gauss.eliminate. cbn [fst]. rewrite <- Hp.
    exact (map_through_fst
             (fun c => Gauss.vec_sub_scaled (hd 0 c / hd 0 (fst p)) (tl c)
                         (tl (fst p))) rest rest' Hr). }
  specialize (IH _ _ Hm).
  destruct (Gauss.elim m (map (Gauss.eliminate p) rest)); [discriminate|].
  intros _. now rewrite IH.
Qed.

Lemma map_fst_combine (A : matrix) (b b' : vector) :
  length b = length b' -> map fst (combine A b) = map fst (combine A b').
Proof.
  revert b b'. induction A as [|r A IH]; intros [|c b] [|c' b'] H;
    cbn [length] in H; try discriminate; cbn [combine map fst];
    try reflexivity.
  f_equal. apply IH. lia.
Qed.

Lemma gauss_fails_by_matrix : fails_by_matrix Gauss.gauss_solve.
Proof.
  intros A b b' Hb. unfold Gauss.gauss_solve. rewrite <- Hb.
  apply elim_by_matrix. now apply map_fst_combine.
Qed.


(** * The specification's statements *)




(** C2.  For every [lam] and every number [n >= 1] of interior points
    ([nx = n + 2]), source lines 142-143 build two [n] by [n] matrices: [A]
    has [2 (1 + lam)] on the diagonal and [- lam] next to it, [B] has
    [2 (1 - lam)] on the diagonal and [lam] next to it, and every other
    entry of both is zero. *)
Theorem coefficient_matrices_tridiagonal (lam : Qc) (n : nat) :
  (1 <= n)%nat ->
  exists A B,
    build_A lam (Z.of_nat n + 2) = inr A /\
    build_B lam (Z.of_nat n + 2) = inr B /\
    is_tridiagonal n (two * (1 + lam)) (- lam) A /\
    is_tridiagonal n (two * (1 - lam)) lam B.
Proof.
  intros Hn. exists (mat_of n (tri (two * (1 + lam)) (- lam))),
                    (mat_of n (tri (two * (1 - lam)) lam)).
  split; [now apply build_A_tri|]. split; [now apply build_B_tri|].
  split; apply is_tridiagonal_mat_of.
Qed.

Lemma coefficient_matrices_tridiagonal_witness :
  exists A B,
    build_A two 5 = inr A /\ build_B two 5 = inr B /\
    is_tridiagonal 3 (two * (1 + two)) (- two) A /\
    is_tridiagonal 3 (two * (1 - two)) two B.
Proof.
  apply (coefficient_matrices_tridiagonal two (n := 3)). lia.
Defined.

(** C3, as amended.  The matrices of source lines 142-143 have no
    wrap-around entries: for [n >= 3] interior points the corner entries
    [(0, n-1)] and [(n-1, 0)] of [A] and of [B] are zero; for [n = 2] these
    positions are the ordinary entries next to the diagonal, [- lam] in [A]
    and [lam] in [B]. *)
Theorem corner_entries_not_wrapped (lam : Qc) (n : nat) :
  (2 <= n)%nat ->
  exists A B,
    build_A lam (Z.of_nat n + 2) = inr A /\
    build_B lam (Z.of_nat n + 2) = inr B /\
    entry A 0 (n - 1) = (if (n =? 2)%nat then - lam else 0) /\
    entry A (n - 1) 0 = (if (n =? 2)%nat then - lam else 0) /\
    entry B 0 (n - 1) = (if (n =? 2)%nat then lam else 0) /\
    entry B (n - 1) 0 = (if (n =? 2)%nat then lam else 0).
Proof.
  intros Hn. exists (mat_of n (tri (two * (1 + lam)) (- lam))),
                    (mat_of n (tri (two * (1 - lam)) lam)).
  split; [apply build_A_tri; lia|]. split; [apply build_B_tri; lia|].
  rewrite !entry_mat_of by lia. unfold tri.
  destruct (Nat.eqb_spec (n - 1) 0); [lia|].
  destruct (Nat.eqb_spec 0 (n - 1)); [lia|].
  destruct (Nat.eqb_spec 0 (S (n - 1))); [lia|].
  rewrite orb_false_r. cbn [orb].
  destruct (Nat.eqb_spec (n - 1) 1), (Nat.eqb_spec n 2); try lia;
    repeat split; reflexivity.
Qed.

Lemma corner_entries_not_wrapped_witness :
  exists A B,
    build_A two 6 = inr A /\ build_B two 6 = inr B /\
    entry A 0 3 = 0 /\ entry A 3 0 = 0 /\ entry B 0 3 = 0 /\ entry B 3 0 = 0.
Proof.
  apply (corner_entries_not_wrapped two (n := 4)). lia.
Defined.

(** C3 as the specification states it fails: for [n = 3] interior points
    and [lam = 2] the corner entries of both matrices are zero. *)
Lemma corner_entries_zero_example :
  exists A B,
    build_A two 5 = inr A /\ build_B two 5 = inr B /\
    entry A 0 2 = 0 /\ entry A 2 0 = 0 /\ entry B 0 2 = 0 /\ entry B 2 0 = 0.
Proof.
  eexists. eexists. split; [reflexivity|]. split; [reflexivity|].
  repeat split; apply Qc_is_canon; reflexivity.
Qed.




(** C5.  However a run ends, every row of the field it leaves has
    [BCs[0]] in its first and [BCs[1]] in its last position; and a step of
    the loop changes no position outside the interior of row [l + 1]. *)
Theorem boundary_values_never_change (solve : solver) (nx nt : Z) (D : Qc)
  (BCs : Qc * Qc) (init : Qc -> Qc) (u' : matrix) :
  field_of (heat_equation solve nx nt D BCs init) = Some u' ->
  length u' = Z.to_nat nt /\
  (forall l, (l < length u')%nat ->
     nth 0 (nth l u' []) 0 = fst BCs /\ last (nth l u' []) 0 = snd BCs) /\
  (forall A B v l v', time_step solve A B v l = inr v' ->
     forall r c, r <> S l \/ c = O \/ (length (nth r v []) <= S c)%nat ->
       entry v' r c = entry v r c).
Proof.
  intros H. destruct (heat_equation_bounded _ _ _ _ _ _ H) as [Hlen Hb].
  split; [exact Hlen|]. split.
  - intros l Hl. apply Hb. now rewrite <- Hlen.
  - intros A B v l v' Hstep r c Hrc. apply time_step_frame in Hstep.
    destruct Hstep as (_ & Hothers & _ & Hends & _).
    destruct Hrc as [Hr | Hc].
    + unfold entry. now rewrite Hothers.
    + now apply Hends.
Qed.

Lemma boundary_values_never_change_witness :
  let u' := field_or_empty
              (heat_equation Gauss.gauss_solve 5 3 1 (inZ 7, inZ 9) ramp) in
  length u' = 3%nat /\
  (forall l, (l < length u')%nat ->
     nth 0 (nth l u' []) 0 = inZ 7 /\ last (nth l u' []) 0 = inZ 9) /\
  (forall A B v l v', time_step Gauss.gauss_solve A B v l = inr v' ->
     forall r c, r <> S l \/ c = O \/ (length (nth r v []) <= S c)%nat ->
       entry v' r c = entry v r c).
Proof.
  apply (@boundary_values_never_change
           Gauss.gauss_solve 5 3 1 (inZ 7, inZ 9) ramp).
  vm_compute. reflexivity.
Defined.

(** C6.  On every valid grid the cell computes the step sizes and the mesh
    ratio by the expressions of the specification: with [nx - 2] interior
    points on the interval of [J], whose length is 1, and [nt - 1] steps
    covering the time 1, [dx] is [space_length / (interior_count + 1)], [dt]
    is [total_time / step_count] and [lbd] is [D * dt / dx^2]; and [dx] and
    [dt] are positive.  (The array [L] of line 124 is read nowhere.) *)
Theorem grid_quantities_as_specified (nx nt : Z) (D : Qc) :
  let g := cell_grid nx nt in
  valid_grid g ->
  exists Jv,
    J nx = inr Jv /\
    length (interior Jv) = Z.to_nat (interior_count g) /\
    last Jv 0 - hd 0 Jv = space_length g /\
    length (py_range (nt - 1)) = Z.to_nat (step_count g) /\
    dx nx = inr (spec_dx g) /\
    dt nt = inr (spec_dt g) /\
    lbd D nx nt = inr (spec_lambda D g) /\
    0 < spec_dx g /\ 0 < spec_dt g.
Proof.
  intros g (Hn & _ & Hs & _). unfold g, cell_grid in *.
  cbn [interior_count step_count space_length total_time] in *.
  destruct (linspace_ends 0 1 (num := nx)) as (Jv & HJ & HJ0 & HJ1); [lia|].
  exists Jv. split; [exact HJ|].
  destruct (linspace_inv _ _ _ HJ) as [_ Hlen].
  split; [rewrite length_interior, Hlen; lia|].
  split; [rewrite HJ0, HJ1; ring|].
  split; [unfold py_range; apply length_seq|].
  assert (Ex : spec_dx (cell_grid nx nt) = dx_val nx).
  { unfold spec_dx, dx_val, cell_grid.
    cbn [interior_count space_length]. do 2 f_equal. lia. }
  assert (Et : spec_dt (cell_grid nx nt) = dt_val nt) by reflexivity.
  assert (El : spec_lambda D (cell_grid nx nt) = lbd_val D nx nt).
  { unfold spec_lambda, lbd_val. now rewrite Ex, Et. }
  unfold cell_grid in Ex, Et, El. rewrite Ex, Et, El.
  split; [apply dx_ok; lia|]. split; [apply dt_ok; lia|].
  split; [apply lbd_ok; lia|].
  assert (H1 : 0 < 1) by reflexivity.
  split; unfold dx_val, dt_val, Qcdiv;
    (apply Qc_mult_pos; [exact H1 | apply Qc_inv_pos, inZ_pos; lia]).
Qed.

Lemma grid_quantities_as_specified_witness :
  let g := cell_grid notebook_nx notebook_nt in
  exists Jv,
    J notebook_nx = inr Jv /\
    length (interior Jv) = Z.to_nat (interior_count g) /\
    last Jv 0 - hd 0 Jv = space_length g /\
    length (py_range (notebook_nt - 1)) = Z.to_nat (step_count g) /\
    dx notebook_nx = inr (spec_dx g) /\
    dt notebook_nt = inr (spec_dt g) /\
    lbd notebook_D notebook_nx notebook_nt = inr (spec_lambda notebook_D g) /\
    0 < spec_dx g /\ 0 < spec_dt g.
Proof.
  apply (@grid_quantities_as_specified notebook_nx notebook_nt notebook_D).
  unfold valid_grid, cell_grid, notebook_nx, notebook_nt.
  cbn [interior_count step_count space_length total_time].
  repeat split; first [lia | reflexivity].
Defined.






(** C9, as amended.  If the solver fails at step [l], after the steps
    before it succeeded, the run stops there with numpy's [LinAlgError];
    the field is left as step [l] found it, so that the rows after row [l]
    are as they were before the loop; no later step is run and the failed
    solve is not repeated.  With a solver that fails by the matrix alone, as
    [np.linalg.solve] does, this can happen at step 0 only, and then the
    field is left as it was before the loop. *)
Theorem solver_failure_aborts_run (solve : solver) (nx nt : Z) (D : Qc)
  (BCs : Qc * Qc) (init : Qc -> Qc) (A B u : matrix) (l : nat)
  (u_l : matrix) :
  setup nx nt D BCs init = inr (A, B, u) ->
  (l < Z.to_nat (nt - 1))%nat ->
  time_loop solve A B (seq 0 l) u = Completed u_l ->
  solve A (mat_vec B (interior (nth l u_l []))) = None ->
  heat_equation solve nx nt D BCs init = Raised LinAlgError (Some u_l) /\
  (forall r, (l < r)%nat -> nth r u_l [] = nth r u []) /\
  (fails_by_matrix solve -> l = 0%nat /\ u_l = u).
Proof.
  intros Hsetup Hl Hrun Hfail. split; [|split].
  - unfold heat_equation, py_range. rewrite Hsetup.
    replace (Z.to_nat (nt - 1)) with (l + S (Z.to_nat (nt - 1) - S l))%nat
      by lia.
    rewrite seq_app, time_loop_app, Hrun. cbn [seq time_loop Nat.add].
    unfold time_step. now rewrite Hfail.
  - intros r Hr. apply (@time_loop_rows solve A B l 0 u u_l); [|lia].
    now rewrite Hrun.
  - intros Hmat. destruct l as [|l].
    + cbn [seq time_loop] in Hrun. injection Hrun as <-. now split.
    + exfalso. cbn [seq time_loop] in Hrun.
      destruct (time_step solve A B u 0) as [e|u1] eqn:Hstep; [discriminate|].
      apply time_step_spec in Hstep.
      destruct Hstep as (sol & _ & Hsol & _).
      rewrite (Hmat A (mat_vec B (interior (nth (S l) u_l [])))
                 (mat_vec B (interior (nth 0 u [])))) in Hsol;
        [discriminate | | exact Hfail].
      unfold mat_vec. now rewrite !length_map.
Qed.

Lemma solver_failure_aborts_run_witness :
  let st := state_or_empty (setup 3 3 singular_D (0, 0) (fun _ => 1)) in
  let u := snd st in
  heat_equation Gauss.gauss_solve 3 3 singular_D (0, 0) (fun _ => 1)
  = Raised LinAlgError (Some u) /\
  (forall r, (0 < r)%nat -> nth r u [] = nth r u []) /\
  (fails_by_matrix Gauss.gauss_solve -> 0%nat = 0%nat /\ u = u).
Proof.
  cbv zeta.
  apply (@solver_failure_aborts_run
           Gauss.gauss_solve 3 3 singular_D (0, 0) (fun _ => 1)
           (fst (fst (state_or_empty
                        (setup 3 3 singular_D (0, 0) (fun _ => 1)))))
           (snd (fst (state_or_empty
                        (setup 3 3 singular_D (0, 0) (fun _ => 1)))))).
  - vm_compute. reflexivity.
  - vm_compute. lia.
  - reflexivity.
  - vm_compute. reflexivity.
Defined.

(** C9 as the specification states it fails: the exception of a failed
    solve is not a [LinearSolveError] with the index of the step.  With
    [nx = nt = 3] and [D = -1/2] ([lbd = -1]) the matrix [A] is [(0)], in
    binary64 as in exact arithmetic; the solve of step 0 fails, and the run
    ends with numpy's [LinAlgError],
    whose class is not the one the specification names and whose only
    argument, the message, holds no number.  The solver used fails by the
    matrix alone. *)
Lemma failed_solve_raises_linalg_error :
  let st := state_or_empty (setup 3 3 singular_D (0, 0) (fun _ => 1)) in
  setup 3 3 singular_D (0, 0) (fun _ => 1) = inr st /\
  fst (fst st) = [[0]] /\
  (exists d lam64 A64,
     B64.int_div (-1) 2 = inr d /\ B64.value d = singular_D /\
     B64.lbd d 3 3 = inr lam64 /\ B64.build_A lam64 3 = inr A64 /\
     B64.values A64 = [[0]]) /\
  fails_by_matrix Gauss.gauss_solve /\
  heat_equation Gauss.gauss_solve 3 3 singular_D (0, 0) (fun _ => 1)
  = Raised LinAlgError (Some (snd st)) /\
  Py.exception_class LinAlgError <> Py.linear_solve_error_class /\
  Py.mentions_number Py.linalg_error_args = false.
Proof.
  cbv zeta. split; [vm_compute; reflexivity|].
  split; [apply matrix_by_this; vm_compute; reflexivity|].
  split.
  { do 3 eexists. split; [vm_compute; reflexivity|].
    split; [apply Qc_is_canon; vm_compute; reflexivity|].
    split; [vm_compute; reflexivity|]. split; [vm_compute; reflexivity|].
    apply matrix_by_this. vm_compute. reflexivity. }
  split; [exact gauss_fails_by_matrix|].
  split; [vm_compute; reflexivity|].
  split; [discriminate | reflexivity].
Qed.

(** C10.  The interior values of every row the run leaves, the way the run
    ends and the exception it raises are the same for any two choices of
    the boundary values. *)
Theorem interiors_independent_of_boundary (solve : solver) (nx nt : Z)
  (D : Qc) (BCs BCs' : Qc * Qc) (init : Qc -> Qc) :
  observe_interiors (heat_equation solve nx nt D BCs init)
  = observe_interiors (heat_equation solve nx nt D BCs' init).
Proof.
  unfold heat_equation.
  destruct (setup_cases nx nt D init) as [[e He] | Hok].
  - now rewrite !He.
  - destruct Hok as (n & steps & A & B & u0 & _ & _ & _ & _ & _ & _ & Hs).
    rewrite !Hs. apply same_interiors_loop, same_interiors_initial_rows.
Qed.

(** * Further properties of the cell *)

(** ** Exceptions raised before the loop *)

Lemma init_field_state_ok (nx nt : Z) (BCs : Qc * Qc) (u0 : vector)
  (u : matrix) :
  init_field nx nt BCs u0 = inr u -> init_field_state nx nt BCs u0 = Some u.
Proof.
  unfold init_field, init_field_state.
  destruct (np_zeros nt nx) as [e|v]; cbn [bind]; [discriminate|].
  destruct (set_column nx v 0 (fst BCs)) as [e|v1]; cbn [bind];
    [discriminate|].
  destruct (set_column nx v1 (-1) (snd BCs)) as [e|v2]; cbn [bind];
    [discriminate|].
  destruct (set_row_interior v2 0 u0) as [e|v3]; [discriminate|].
  now intros [= <-].
Qed.

(** X1.  Which exception the statements before the loop raise, and the
    array [u] that exists at that point.  A negative [nx] or [nt] is a
    [ValueError] of [np.linspace] and [nx = 1] or [nt = 1] a
    [ZeroDivisionError] of [dx] or [dt], both before [u] is made; [nx = 0]
    is an [IndexError] of the assignment to the first column, with [u] an
    array of [nt] rows without columns; [nt = 0] is an [IndexError] of the
    assignment to row 0, with [u] an array without rows.  For [nx >= 2] and
    [nt >= 2] nothing is raised and the loop finds the array of lines
    132-139. *)
Theorem exceptions_before_loop (nx nt : Z) (D : Qc) (BCs : Qc * Qc)
  (init : Qc -> Qc) :
  let st := setup nx nt D BCs init in
  let u := field_before_loop nx nt D BCs init in
  ((nx < 0)%Z -> st = inl ValueError /\ u = None) /\
  ((0 <= nx)%Z -> (nt < 0)%Z -> st = inl ValueError /\ u = None) /\
  (nx = 1%Z -> (0 <= nt)%Z -> st = inl ZeroDivisionError /\ u = None) /\
  ((0 <= nx)%Z -> nx <> 1%Z -> nt = 1%Z ->
     st = inl ZeroDivisionError /\ u = None) /\
  (nx = 0%Z -> (0 <= nt)%Z -> nt <> 1%Z ->
     st = inl IndexError /\ u = Some (repeat [] (Z.to_nat nt))) /\
  ((2 <= nx)%Z -> nt = 0%Z -> st = inl IndexError /\ u = Some []) /\
  ((2 <= nx)%Z -> (2 <= nt)%Z ->
     exists A B u0, st = inr (A, B, u0) /\ u = Some u0).
Proof.
  cbv zeta. unfold field_before_loop.
  split; [|split; [|split; [|split; [|split; [|split]]]]].
  - intros Hx. unfold setup, J. now rewrite linspace_negative.
  - intros Hx Ht. unfold setup, J, L.
    destruct (linspace_ok 0 1 Hx) as (Jv & -> & _).
    now rewrite linspace_negative.
  - intros -> Ht. unfold setup, J, L.
    destruct (linspace_ok 0 1 (num := 1)) as (Jv & -> & _); [lia|].
    destruct (linspace_ok 0 (inZ 10) Ht) as (Lv & -> & _).
    split; reflexivity.
  - intros Hx Hx1 ->. unfold setup, J, L.
    destruct (linspace_ok 0 1 Hx) as (Jv & -> & _).
    destruct (linspace_ok 0 (inZ 10) (num := 1)) as (Lv & -> & _); [lia|].
    cbn [bind]. unfold lbd. rewrite dx_ok by exact Hx1. cbn [bind].
    rewrite dt_fail. split; reflexivity.
  - intros -> Ht Ht1. unfold setup, J, L.
    destruct (linspace_ok 0 1 (num := 0)) as (Jv & -> & _); [lia|].
    destruct (linspace_ok 0 (inZ 10) Ht) as (Lv & -> & _).
    cbn [bind]. rewrite lbd_ok by lia. cbn [bind]. cbv zeta.
    rewrite init_field_fail_cols by exact Ht. split; [reflexivity|].
    unfold init_field_state. rewrite np_zeros_ok by lia.
    rewrite set_column_fail by (lia || auto). reflexivity.
  - intros Hx ->. unfold setup, J, L.
    destruct (linspace_ok 0 1 (num := nx)) as (Jv & -> & _); [lia|].
    destruct (linspace_ok 0 (inZ 10) (num := 0)) as (Lv & -> & _); [lia|].
    cbn [bind]. rewrite lbd_ok by lia. cbn [bind]. cbv zeta.
    rewrite init_field_fail_rows by exact Hx. split; [reflexivity|].
    unfold init_field_state. rewrite np_zeros_ok by lia.
    rewrite set_column_first by lia. rewrite set_column_last by lia.
    reflexivity.
  - intros Hx Ht. pose proof (@setup_any nx nt D BCs init Hx Ht) as Hs.
    cbv zeta in Hs. rewrite Hs. do 3 eexists. split; [reflexivity|].
    unfold setup in Hs.
    destruct (J nx) as [e|Jv]; [discriminate|].
    destruct (L nt) as [e|Lv]; [discriminate|].
    destruct (lbd D nx nt) as [e|lam]; [discriminate|].
    cbn [bind] in Hs. cbv zeta in Hs.
    destruct (init_field nx nt BCs (map init (interior Jv))) as [e|u1] eqn:Hu;
      [discriminate|].
    rewrite (init_field_state_ok _ _ _ _ Hu). cbn [bind] in Hs.
    destruct (build_A lam nx) as [e|A]; [discriminate|].
    destruct (build_B lam nx) as [e|B]; [discriminate|].
    cbn [bind] in Hs. now injection Hs as _ _ <-.
Qed.

(** ** The shape of the field and its first row *)

(** X2.  However a run ends, the field it leaves has [nt] rows of [nx]
    entries, and its row 0 still holds the first boundary value, the
    initial values [u0] and the second boundary value: no step writes to
    row 0. *)
Theorem field_shape_and_first_row (solve : solver) (nx nt : Z) (D : Qc)
  (BCs : Qc * Qc) (init : Qc -> Qc) (u' : matrix) :
  field_of (heat_equation solve nx nt D BCs init) = Some u' ->
  length u' = Z.to_nat nt /\
  (forall r, (r < Z.to_nat nt)%nat -> length (nth r u' []) = Z.to_nat nx) /\
  nth 0 u' [] = fst BCs :: initial_values nx init ++ [snd BCs].
Proof.
  intros H. destruct (heat_equation_field_grid _ _ _ _ _ _ H) as [Hx Ht].
  unfold heat_equation in H. rewrite setup_any in H by assumption.
  unfold py_range in H.
  set (n := Z.to_nat (nx - 2)) in *. set (steps := Z.to_nat (nt - 1)) in *.
  set (u := initial_rows n steps BCs (initial_values nx init)) in *.
  assert (Hshape : field_shape (S steps) (S (S n)) u')
    by exact (@time_loop_preserves (field_shape (S steps) (S (S n))) solve _ _
                (fun v l v1 => @field_shape_step solve _ _ _ _ v l v1)
                _ _ u'
                (@field_shape_initial_rows n steps BCs _
                   (length_initial_values nx init)) H).
  destruct Hshape as [Hrows Hcols].
  assert (Esteps : S steps = Z.to_nat nt) by (unfold steps; lia).
  assert (En : S (S n) = Z.to_nat nx) by (unfold n; lia).
  rewrite <- Esteps, <- En. split; [exact Hrows|]. split; [exact Hcols|].
  rewrite (@time_loop_rows solve _ _ steps 0 u u' H) by lia. reflexivity.
Qed.

Lemma field_shape_and_first_row_witness :
  let u' := field_or_empty
              (heat_equation Gauss.gauss_solve 5 3 1 (inZ 7, inZ 9) ramp) in
  length u' = Z.to_nat 3 /\
  (forall r, (r < Z.to_nat 3)%nat -> length (nth r u' []) = Z.to_nat 5) /\
  nth 0 u' [] = fst (inZ 7, inZ 9) :: initial_values 5 ramp ++ [snd (inZ 7, inZ 9)].
Proof.
  apply (@field_shape_and_first_row
           Gauss.gauss_solve 5 3 1 (inZ 7, inZ 9) ramp).
  vm_compute. reflexivity.
Defined.

(** ** Rows are written once *)

(** X10.  A row is never rewritten: the rows a run has after its first [k]
    steps are the rows [0, ..., k] of the field it leaves in the end,
    whether it completes or is aborted later. *)
Theorem rows_never_rewritten (solve : solver) (nx nt : Z) (D : Qc)
  (BCs : Qc * Qc) (init : Qc -> Qc) (A B u : matrix) (k : nat)
  (u_k u' : matrix) :
  setup nx nt D BCs init = inr (A, B, u) ->
  (k <= Z.to_nat (nt - 1))%nat ->
  time_loop solve A B (seq 0 k) u = Completed u_k ->
  field_of (heat_equation solve nx nt D BCs init) = Some u' ->
  forall r, (r <= k)%nat -> nth r u' [] = nth r u_k [].
Proof.
  intros Hsetup Hk Hrun H r Hr.
  unfold heat_equation, py_range in H. rewrite Hsetup in H.
  replace (Z.to_nat (nt - 1)) with (k + (Z.to_nat (nt - 1) - k))%nat in H
    by lia.
  rewrite seq_app, time_loop_app, Hrun in H. cbn [Nat.add] in H.
  apply (@time_loop_rows solve A B _ k u_k u' H). lia.
Qed.

Lemma rows_never_rewritten_witness :
  let st := state_or_empty (setup 5 4 1 (0, 0) ramp) in
  let u_1 := field_or_empty
               (time_loop Gauss.gauss_solve (fst (fst st)) (snd (fst st))
                  (seq 0 1) (snd st)) in
  let u' := field_or_empty (heat_equation Gauss.gauss_solve 5 4 1 (0, 0) ramp) in
  nth 0 u' [] = nth 0 u_1 [] /\ nth 1 u' [] = nth 1 u_1 [].
Proof.
  cbv zeta.
  split;
    apply (@rows_never_rewritten Gauss.gauss_solve 5 4 1 (0, 0) ramp
             (fst (fst (state_or_empty (setup 5 4 1 (0, 0) ramp))))
             (snd (fst (state_or_empty (setup 5 4 1 (0, 0) ramp))))
             (snd (state_or_empty (setup 5 4 1 (0, 0) ramp))) 1%nat);
    first [lia | vm_compute; reflexivity | vm_compute; lia].
Defined.

(** ** A grid without interior points *)

Lemma empty_system_total (solve : solver) :
  solver_contract solve -> total_on solve (mat_of 0 (fun _ _ => 0)) 0.
Proof.
  intros Hc. apply contract_total; [exact Hc | apply square_mat_of|].
  intros y Hy _. now apply length_zero_iff_nil in Hy.
Qed.

(** X3.  With [nx = 2] there is no interior point: the matrices are empty,
    every step solves the empty system, and the run completes with [nt]
    rows that hold the two boundary values only. *)
Theorem no_interior_points (solve : solver) (nt : Z) (D : Qc)
  (BCs : Qc * Qc) (init : Qc -> Qc) :
  solver_contract solve -> (2 <= nt)%Z ->
  build_A (lbd_val D 2 nt) 2 = inr [] /\
  build_B (lbd_val D 2 nt) 2 = inr [] /\
  heat_equation solve 2 nt D BCs init
  = Completed (repeat [fst BCs; snd BCs] (Z.to_nat nt)).
Proof.
  intros Hc Ht. split; [reflexivity|]. split; [reflexivity|].
  destruct (@run_rows solve 2 nt D BCs init) as (u' & Hrun & Hlen & Hrow & _);
    [lia | exact Ht | apply Hc | exact (empty_system_total Hc)|].
  rewrite Hrun. f_equal.
  assert (Esteps : S (Z.to_nat (nt - 1)) = Z.to_nat nt) by lia.
  apply (@field_ext (Z.to_nat nt));
    [lia | apply repeat_length|].
  intros r Hr. rewrite nth_repeat_lt by exact Hr.
  destruct (Hrow r) as [Hint Hparts]; [lia|].
  change (Z.to_nat (2 - 2)) with O in Hint.
  apply length_zero_iff_nil in Hint. now rewrite Hparts, Hint.
Qed.

Lemma no_interior_points_witness :
  build_A (lbd_val 1 2 4) 2 = inr [] /\
  build_B (lbd_val 1 2 4) 2 = inr [] /\
  heat_equation Gauss.gauss_solve 2 4 1 (inZ 7, inZ 9) ramp
  = Completed (repeat [fst (inZ 7, inZ 9); snd (inZ 7, inZ 9)] (Z.to_nat 4)).
Proof.
  apply (@no_interior_points Gauss.gauss_solve 4 1 (inZ 7, inZ 9) ramp).
  - exact GaussFacts.gauss_contract.
  - lia.
Defined.

(** ** The space grid *)

(** X4.  The space grid is made of multiples of [dx]: [J] has [nx] points;
    point [j] is [j * dx] for every [j] but the last, and the last point is
    1. *)
Theorem space_grid_points (nx : Z) (Jv : vector) (h : Qc) :
  J nx = inr Jv -> dx nx = inr h ->
  length Jv = Z.to_nat nx /\
  (forall j, (S j < Z.to_nat nx)%nat ->
     nth j Jv 0 = inZ (Z.of_nat j) * h) /\
  ((2 <= nx)%Z -> last Jv 0 = 1).
Proof.
  intros HJ Hh. apply py_div_inv in Hh. destruct Hh as [Hx ->].
  split; [eapply linspace_inv; eassumption|]. split.
  - intros j Hj. rewrite (@linspace_nth 0 1 nx Jv j HJ) by lia. now field.
  - intros H2. destruct (linspace_ends 0 1 H2) as (v & Hv & _ & Hlast).
    unfold J in HJ. rewrite HJ in Hv. now injection Hv as <-.
Qed.

Lemma space_grid_points_witness :
  let Jv := vector_or_empty (J 4) in
  length Jv = Z.to_nat 4 /\
  (forall j, (S j < Z.to_nat 4)%nat ->
     nth j Jv 0 = inZ (Z.of_nat j) * dx_val 4) /\
  ((2 <= 4)%Z -> last Jv 0 = 1).
Proof.
  apply (@space_grid_points 4); vm_compute; reflexivity.
Defined.

(** X5.  Row 0 of the field a run leaves samples the initial profile on the
    grid: its entry [j], for an interior [j], is the profile at [j * dx]. *)
Theorem first_row_samples_profile (solve : solver) (nx nt : Z) (D : Qc)
  (BCs : Qc * Qc) (init : Qc -> Qc) (u' : matrix) (j : nat) :
  field_of (heat_equation solve nx nt D BCs init) = Some u' ->
  (1 <= j)%nat -> (S j < Z.to_nat nx)%nat ->
  entry u' 0 j = init (inZ (Z.of_nat j) * dx_val nx).
Proof.
  intros H Hj1 Hj2. unfold entry. rewrite (field_first_row _ _ _ _ _ _ H).
  destruct j as [|i]; [lia|]. cbn [nth].
  rewrite app_nth1 by (rewrite length_initial_values; lia).
  apply initial_values_nth. lia.
Qed.

Lemma first_row_samples_profile_witness :
  let u' := field_or_empty
              (heat_equation Gauss.gauss_solve 5 3 1 (inZ 7, inZ 9) ramp) in
  entry u' 0 3 = ramp (inZ (Z.of_nat 3) * dx_val 5).
Proof.
  apply (@first_row_samples_profile
           Gauss.gauss_solve 5 3 1 (inZ 7, inZ 9) ramp).
  - vm_compute. reflexivity.
  - lia.
  - vm_compute. lia.
Defined.

(** ** Stability of the scheme *)










(** ** Non-negative values for a mesh ratio of at most one *)

(** Maximum principle for the implicit matrix: if no row of [A x] is
    positive, no entry of [x] is. *)
Lemma tri_row_max (lam : Qc) (n : nat) (x : vector) :
  0 < lam -> length x = n ->
  (forall i, (i < n)%nat -> tri_row (two * (1 + lam)) (- lam) x i <= 0) ->
  forall i, (i < n)%nat -> nth i x 0 <= 0.
Proof.
  intros Hlam Hx Hrow i Hi.
  destruct (max_index (fun j => nth j x 0) (n := n)) as [m [Hm Hmax]]; [lia|].
  apply Qcle_trans with (nth m x 0); [now apply Hmax|].
  destruct (Qclt_le_dec 0 (nth m x 0)) as [Hpos|Hle]; [exfalso | exact Hle].
  assert (Hnext : nth (S m) x 0 <= nth m x 0).
  { destruct (Nat.lt_ge_cases (S m) n) as [Hin|Hout]; [now apply Hmax|].
    rewrite nth_overflow_0 by lia. now apply Qclt_le_weak. }
  assert (Hprev : prev x m <= nth m x 0).
  { destruct m as [|k]; cbn [prev];
      [now apply Qclt_le_weak | apply Hmax; lia]. }
  specialize (Hrow m Hm). unfold tri_row in Hrow.
  revert Hrow Hnext Hprev Hpos Hlam.
  generalize (nth m x 0) (nth (S m) x 0) (prev x m). clear.
  intros a b c. qc_nra.
Qed.

Lemma explicit_row_nonneg (lam : Qc) (v : vector) (i : nat) :
  0 < lam -> lam <= 1 -> (forall k, 0 <= nth k v 0) ->
  0 <= tri_row (two * (1 - lam)) lam v i.
Proof.
  intros Hlam Hle Hv. unfold tri_row.
  assert (Hp : 0 <= prev v i)
    by (destruct i as [|k]; cbn [prev]; [apply Qcle_refl | apply Hv]).
  pose proof (Hv i) as Hi. pose proof (Hv (S i)) as Hn.
  revert Hlam Hle Hi Hn Hp.
  generalize (nth i v 0) (nth (S i) v 0) (prev v i). clear.
  intros a b c. qc_nra.
Qed.

Lemma step_nonneg (lam : Qc) (n : nat) (x v : vector) :
  0 < lam -> lam <= 1 -> length x = n ->
  (forall i, (i < n)%nat ->
     tri_row (two * (1 + lam)) (- lam) x i
     = tri_row (two * (1 - lam)) lam v i) ->
  (forall k, 0 <= nth k v 0) -> forall k, 0 <= nth k x 0.
Proof.
  intros Hlam Hle Hx Hrow Hv k.
  destruct (Nat.lt_ge_cases k n) as [Hk|Hk];
    [|rewrite nth_overflow_0 by lia; apply Qcle_refl].
  assert (Hneg : nth k (map Qcopp x) 0 <= 0).
  { apply (tri_row_max (n := n) Hlam); [now rewrite length_map | | exact Hk].
    intros i Hi. rewrite tri_row_opp, Hrow by exact Hi.
    pose proof (@explicit_row_nonneg lam v i Hlam Hle Hv) as H.
    revert H. generalize (tri_row (two * (1 - lam)) lam v i). clear.
    intros a. qc_lra. }
  change 0 with (- 0) in Hneg at 1. rewrite map_nth in Hneg.
  revert Hneg. generalize (nth k x 0). clear. intros a. qc_lra.
Qed.

(** X8.  When the mesh ratio is at most one, a profile without negative
    values gives a field without negative interior values. *)
Theorem nonnegative_values_preserved (solve : solver) (nx nt : Z) (D : Qc)
  (BCs : Qc * Qc) (init : Qc -> Qc) :
  solver_contract solve -> (2 <= nx)%Z -> (2 <= nt)%Z -> 0 < D ->
  lbd_val D nx nt <= 1 -> (forall x, 0 <= init x) ->
  exists u',
    heat_equation solve nx nt D BCs init = Completed u' /\
    forall r j, (r < Z.to_nat nt)%nat -> (1 <= j)%nat ->
      (S j < Z.to_nat nx)%nat -> 0 <= entry u' r j.
Proof.
  intros Hc Hx Ht HD Hle Hinit0.
  assert (Hlam : 0 < lbd_val D nx nt) by now apply lbd_val_pos.
  destruct (@run_rows solve nx nt D BCs init Hx Ht (proj1 Hc)
              (@implicit_total solve _ _ Hc Hlam))
    as (u' & Hrun & Hlen & Hrow & Hinit & Hstep).
  exists u'. split; [exact Hrun|].
  assert (Hint : forall r, (r <= Z.to_nat (nt - 1))%nat ->
            forall k, 0 <= nth k (interior (nth r u' [])) 0).
  { induction r as [|r IH]; intros Hr.
    - rewrite Hinit. intros k.
      destruct (Nat.lt_ge_cases k (Z.to_nat (nx - 2))) as [Hk|Hk].
      + rewrite initial_values_nth by exact Hk. apply Hinit0.
      + rewrite nth_overflow_0 by (rewrite length_initial_values; lia).
        apply Qcle_refl.
    - apply (@step_nonneg (lbd_val D nx nt) (Z.to_nat (nx - 2)) _
               (interior (nth r u' [])) Hlam Hle);
        [apply Hrow; lia | | apply IH; lia].
      apply step_rows; [apply Hrow; lia | apply Hrow; lia|].
      apply Hstep. lia. }
  intros r j Hr Hj1 Hj2. destruct j as [|i]; [lia|].
  destruct (Hrow r) as [Hl E]; [lia|]. unfold entry.
  rewrite (@entry_interior _ _ _ _ i Hl E) by lia. apply Hint. lia.
Qed.

Lemma nonnegative_values_preserved_witness :
  exists u',
    heat_equation Gauss.gauss_solve 3 5 1 (0, 0) (fun _ => 1) = Completed u' /\
    forall r j, (r < Z.to_nat 5)%nat -> (1 <= j)%nat ->
      (S j < Z.to_nat 3)%nat -> 0 <= entry u' r j.
Proof.
  apply (@nonnegative_values_preserved
           Gauss.gauss_solve 3 5 1 (0, 0) (fun _ => 1)).
  - exact GaussFacts.gauss_contract.
  - lia.
  - lia.
  - reflexivity.
  - vm_compute. discriminate.
  - intros x. vm_compute. discriminate.
Defined.

(** ** One interior point *)



(** ** What the field depends on *)



(** ** No diffusion *)








